(** * Commit diffs over two tree snapshots (src/index.ts)

    [diff] in src/index.ts walks the tree of a commit's first parent (side A)
    and the commit's own tree (side B) with the walker of isomorphic-git and,
    in the [map] callback, turns every changed blob path into a change record
    whose [diff] field is the patch text of the `diff` package with its first
    two lines cut off.

    The callback and [removeNoiseFromPatch] are embedded from the source.
    The patch generator [Diff.createPatch] is a third-party routine: the
    development is parametric in it.  The walker is third-party as well and is
    modelled from the specification's description of it.  An entry's
    [content()] may reject, as when the object behind it is not in the
    store; the callback has no handler, so the rejection ends the call. *)

From Stdlib Require Import ZArith Ascii String DecimalString.
From stdpp Require Import base option list gmap strings sorting.

(** ** JavaScript string primitives used by the source *)

Module Js.

Definition nl : ascii := Ascii.ascii_of_nat 10.
Definition NL : string := String nl "".

(** [s.split(sep)] for a one-character separator: the pieces between the
    separators, the empty string giving one empty piece. *)
Fixpoint split (sep : ascii) (s : string) : list string :=
  match s with
  | EmptyString => [""]
  | String c s' =>
      if Ascii.eqb c sep then "" :: split sep s'
      else match split sep s' with
           | [] => [String c ""]
           | piece :: pieces => String c piece :: pieces
           end
  end.

(** [xs.join(sep)]. *)
Definition join (sep : string) (xs : list string) : string :=
  String.concat sep xs.

(** [xs.slice(n)] for [n] within [0 .. length]: the list without its first
    [n] elements (empty when there are fewer). *)
Definition slice {A} (n : nat) (xs : list A) : list A := drop n xs.

(** [v ?? d]. *)
Definition nullish {A} (v : option A) (d : A) : A := default d v.

(** Truthiness of an optional integer number: [undefined] and [0] are
    falsy. *)
Definition truthy (n : option Z) : bool :=
  match n with
  | Some z => negb (Z.eqb z 0)
  | None => false
  end.

(** [String(n)] for an optional integer number: the decimal numeral.  That
    is what JavaScript prints for an integer of magnitude below 10^21, from
    where on it prints an exponent form; the numbers given to it here are
    file modes, which a tree stores as at most six octal digits. *)
Definition String_of (n : option Z) : string :=
  match n with
  | Some z => NilZero.string_of_int (Z.to_int z)
  | None => "undefined"
  end.

(** A string without line feed. *)
Fixpoint one_line (s : string) : bool :=
  match s with
  | EmptyString => true
  | String c s' => negb (Ascii.eqb c nl) && one_line s'
  end.

End Js.

(** ** Data model *)

(** What [WalkerEntry.type()] answers. *)
Inductive EntryType := tree | blob | special | commit.

#[global] Instance EntryType_eq_dec : EqDecision EntryType.
Proof. solve_decision. Defined.

(** What the promise of [WalkerEntry.content()] settles to: it resolves to
    the blob, here as the UTF-8 text it decodes to, or to [undefined] for an
    entry without bytes; or it rejects, as it does with a NotFoundError when
    the object is not in the store. *)
Inductive Content :=
| Resolves (bytes : option string)
| Rejects (reason : string).

(** A [WalkerEntry] of the tree walker, with what each accessor gives. *)
Record WalkerEntry := {
  type : EntryType;
  mode : Z;
  oid : string;
  content : Content
}.

(** The object literal returned by the callback. *)
Record ChangeRecord := {
  diff : string;
  new_path : option string;
  old_path : option string;
  a_mode : option string;
  b_mode : option string;
  new_file : bool;
  renamed_file : bool;
  deleted_file : bool
}.

(** The local variable [type] of the callback. *)
Inductive ChangeType := add | equal | modify | remove.

#[global] Instance ChangeType_eq_dec : EqDecision ChangeType.
Proof. solve_decision. Defined.

(** What a call can end with instead of a value: the [Error] thrown at line
    50 for a path, or the rejection of a [content()] promise, which the
    callback does not catch. *)
Inductive Thrown :=
| Weird (filepath : string)
| Rejected (reason : string).

(** A call either returns a value or throws. *)
Inductive Result (A : Type) :=
| Ok (value : A)
| Throw (error : Thrown).
Arguments Ok {A} value.
Arguments Throw {A} error.

#[global] Instance Result_ret : MRet Result := fun A a => Ok a.
#[global] Instance Result_bind : MBind Result := fun A B k r =>
  match r with
  | Ok a => k a
  | Throw e => Throw e
  end.

(** ** The code of [diff] *)

(** [removeNoiseFromPatch]: [patch.split("\n").slice(2).join("\n")]. *)
Definition removeNoiseFromPatch (patch : string) : string :=
  Js.join Js.NL (Js.slice 2 (Js.split Js.nl patch)).

(** Lines 45-48: the three assignments to [type], in order. *)
Definition change_type (aOID bOID : option string) : ChangeType :=
  let ty := equal in
  let ty := if decide (aOID = bOID) then ty else modify in
  let ty := if aOID is None then add else ty in
  let ty := if bOID is None then remove else ty in
  ty.

Definition weird (filepath : string) : string :=
  "Something weird happened while trying to walk on: " +:+ filepath.

(** The message of what was thrown. *)
Definition message (e : Thrown) : string :=
  match e with
  | Weird filepath => weird filepath
  | Rejected reason => reason
  end.

(** [await E?.content()]: [undefined] for an absent side, else what the
    entry's promise settles to, a rejection being thrown. *)
Definition fetch (E : option WalkerEntry) : Result (option string) :=
  match E with
  | Some e =>
      match content e with
      | Resolves bytes => Ok bytes
      | Rejects reason => Throw (Rejected reason)
      end
  | None => Ok None
  end.
Arguments fetch : simpl never.

Section Callback.

(** [Diff.createPatch(fileName, oldStr, newStr)]. *)
Variable createPatch : string -> string -> string -> string.

(** The [map] callback handed to [git.walk]: [Ok None] is a plain [return]
    (the path yields nothing), [Ok (Some r)] returns a record, [Throw] is the
    [throw] of line 50 or a rejected [content()]. *)
Definition map (filepath : string) (A B : option WalkerEntry)
  : Result (option ChangeRecord) :=
  if String.eqb filepath "." then Ok None
  else if bool_decide (type <$> A = Some tree)
          || bool_decide (type <$> B = Some tree) then Ok None
  else
    let aMode := mode <$> A in
    let bMode := mode <$> B in
    let aOID := oid <$> A in
    let bOID := oid <$> B in
    let ty := change_type aOID bOID in
    if bool_decide (aOID = None) && bool_decide (bOID = None)
    then Throw (Weird filepath)
    else
      match ty with
      | add =>
          content ← fetch B;
          let patch := createPatch filepath "" (Js.nullish content "") in
          Ok (Some {|
            diff := removeNoiseFromPatch patch;
            new_path := Some filepath;
            old_path := None;
            a_mode := if Js.truthy aMode then Some (Js.String_of aMode) else None;
            b_mode := if Js.truthy bMode then Some (Js.String_of bMode) else None;
            new_file := true;
            renamed_file := false;
            deleted_file := false |})
      | modify =>
          aContent ← fetch A;
          bContent ← fetch B;
          let patch :=
            createPatch filepath (Js.nullish aContent "") (Js.nullish bContent "") in
          Ok (Some {|
            diff := removeNoiseFromPatch patch;
            new_path := Some filepath;
            old_path := Some filepath;
            a_mode := if Js.truthy aMode then Some (Js.String_of aMode) else None;
            b_mode := if Js.truthy bMode then Some (Js.String_of aMode) else None;
            new_file := false;
            renamed_file := false;
            deleted_file := false |})
      | remove =>
          aContent ← fetch A;
          bContent ← fetch B;
          let patch :=
            createPatch filepath (Js.nullish aContent "") (Js.nullish bContent "") in
          Ok (Some {|
            diff := removeNoiseFromPatch patch;
            new_path := None;
            old_path := Some filepath;
            a_mode := if Js.truthy aMode then Some (Js.String_of aMode) else None;
            b_mode := if Js.truthy bMode then Some (Js.String_of aMode) else None;
            new_file := false;
            renamed_file := false;
            deleted_file := true |})
      | equal => Ok None
      end.

End Callback.

(** ** The tree walker *)

(** A tree snapshot: the entry found at each path ("." is the root, every
    other key is a slash-separated path below it). *)
Abbreviation Tree := (gmap string WalkerEntry).

(** The path components, none for the root. *)
Definition segments (p : string) : list string :=
  if String.eqb p "." then [] else Js.split "/" p.

(** Depth first, names in lexicographic order within a directory: a
    directory comes before what it contains, and siblings are compared by
    name. *)
Fixpoint segments_leb (p q : list string) : bool :=
  match p, q with
  | [], _ => true
  | _ :: _, [] => false
  | x :: p', y :: q' =>
      match String.compare x y with
      | Lt => true
      | Gt => false
      | Eq => segments_leb p' q'
      end
  end.

Definition path_le (p q : string) : Prop :=
  segments_leb (segments p) (segments q) = true.

#[global] Instance path_le_dec : RelDecision path_le.
Proof. intros p q. unfold path_le. apply _. Defined.

(** What the walker hands to the callback at one path. *)
Definition Visit : Type := string * (option WalkerEntry * option WalkerEntry).

(** Modelled from the spec: the Tree Walker, [git.walk] of isomorphic-git,
    which src/ only calls.  It enumerates the union of the paths of the two
    snapshots, each exactly once, in traversal order. *)
Definition paths (treeA treeB : Tree) : list string :=
  merge_sort path_le (elements (dom treeA ∪ dom treeB)).

(** Modelled from the spec: at each path the walker supplies both sides'
    entries, or the absence marker for a side without one. *)
Definition visits (treeA treeB : Tree) : list Visit :=
  (fun p => (p, (treeA !! p, treeB !! p))) <$> paths treeA treeB.

Section Walk.

Variable createPatch : string -> string -> string -> string.

(** Modelled from the spec: the walk calls the callback once per visit and
    collects the records it returns in traversal order; a call that throws
    aborts the walk with that error. *)
Fixpoint collect (vs : list Visit) : Result (list ChangeRecord) :=
  match vs with
  | [] => Ok []
  | (filepath, (A, B)) :: vs' =>
      r ← map createPatch filepath A B;
      rs ← collect vs';
      mret (option_list r ++ rs)
  end.

(** Modelled from the spec: [git.walk({ trees: [TREE(A), TREE(B)], map })],
    the walker run over two snapshots with the callback of [diff]. *)
Definition walk (treeA treeB : Tree) : Result (list ChangeRecord) :=
  collect (visits treeA treeB).

End Walk.

(** ** A patch generator to run the code with *)

(** A generator to run the code with; it is not the `diff` package.  It
    prints the package's preamble, the [Index:] line, a rule of equal signs
    and the [---] and [+++] file lines, and then a single hunk that deletes
    every old line and adds every new line, each line ended by a line feed.
    For a plain file name this is the package's text when one of the two
    texts is empty and when they are short texts without a common line;
    where the texts share lines the package prints context lines and this
    generator does not. *)
Module UnifiedPatch.

Definition ends_with_newline (s : string) : bool :=
  bool_decide (last (Js.split Js.nl s) = Some "") && negb (String.eqb s "").

Definition text_lines (s : string) : list string :=
  if String.eqb s "" then []
  else if ends_with_newline s then removelast (Js.split Js.nl s)
  else Js.split Js.nl s.

Definition count (ls : list string) : string :=
  Js.String_of (Some (Z.of_nat (length ls))).

Definition start (ls : list string) : string :=
  if bool_decide (ls = []) then "0" else "1".

Definition no_newline_marker (s : string) : list string :=
  if String.eqb s "" || ends_with_newline s then []
  else ["\ No newline at end of file"].

Definition hunk (oldStr newStr : string) : list string :=
  if String.eqb oldStr newStr then []
  else
    let olds := text_lines oldStr in
    let news := text_lines newStr in
    ("@@ -" +:+ start olds +:+ "," +:+ count olds
       +:+ " +" +:+ start news +:+ "," +:+ count news +:+ " @@")
    :: (String.append "-" <$> olds) ++ no_newline_marker oldStr
    ++ (String.append "+" <$> news) ++ no_newline_marker newStr.

Definition rule : string :=
  "===================================================================".

Definition createPatch (fileName oldStr newStr : string) : string :=
  Js.join Js.NL
    ([ "Index: " +:+ fileName; rule; "--- " +:+ fileName; "+++ " +:+ fileName ]
     ++ hunk oldStr newStr) +:+ Js.NL.

End UnifiedPatch.

(** A second generator to run the code with; it is not the `diff` package
    either.  Same preamble; one hunk over the whole of the two texts, with
    the lines of a longest common subsequence kept as context lines and the
    others deleted or added.  Where deleting the old line and adding the new
    one keep equally much, it deletes first or adds first, as
    [delete_first] says.  It is meant for short texts that end with a line
    feed: it prints no marker for a missing final line feed and never
    splits the hunk. *)
Module MinimalPatch.

Inductive Edit :=
| Keep (l : string)
| Del (l : string)
| Add (l : string).

(** Length of a longest common subsequence. *)
Fixpoint lcs (xs : list string) : list string -> nat :=
  match xs with
  | [] => fun _ => 0
  | x :: xs' =>
      fix lcs_x (ys : list string) : nat :=
        match ys with
        | [] => 0
        | y :: ys' =>
            if String.eqb x y then S (lcs xs' ys')
            else Nat.max (lcs xs' ys) (lcs_x ys')
        end
  end.

(** A shortest edit script from [xs] to [ys]. *)
Fixpoint script (delete_first : bool) (xs : list string)
  : list string -> list Edit :=
  match xs with
  | [] => fun ys => Add <$> ys
  | x :: xs' =>
      fix script_x (ys : list string) : list Edit :=
        match ys with
        | [] => Del <$> (x :: xs')
        | y :: ys' =>
            if String.eqb x y then Keep x :: script delete_first xs' ys'
            else
              let by_del := lcs xs' ys in
              let by_add := lcs (x :: xs') ys' in
              if (if delete_first then by_add <=? by_del else by_add <? by_del)
              then Del x :: script delete_first xs' ys
              else Add y :: script_x ys'
        end
  end.

Definition render (e : Edit) : string :=
  match e with
  | Keep l => " " +:+ l
  | Del l => "-" +:+ l
  | Add l => "+" +:+ l
  end.

Definition hunk (delete_first : bool) (oldStr newStr : string) : list string :=
  if String.eqb oldStr newStr then []
  else
    let olds := UnifiedPatch.text_lines oldStr in
    let news := UnifiedPatch.text_lines newStr in
    ("@@ -" +:+ UnifiedPatch.start olds +:+ "," +:+ UnifiedPatch.count olds
       +:+ " +" +:+ UnifiedPatch.start news +:+ "," +:+ UnifiedPatch.count news
       +:+ " @@")
    :: (render <$> script delete_first olds news).

Definition createPatch (delete_first : bool)
  (fileName oldStr newStr : string) : string :=
  Js.join Js.NL
    ([ "Index: " +:+ fileName; UnifiedPatch.rule;
       "--- " +:+ fileName; "+++ " +:+ fileName ]
     ++ hunk delete_first oldStr newStr) +:+ Js.NL.

End MinimalPatch.

(** ** Sample snapshots *)

Definition root_entry : WalkerEntry :=
  {| type := tree; mode := 16384; oid := "4b825dc642cb6eb9a060e54bf8d69288fbee4904";
     content := Resolves None |}.

Definition file (id text : string) : WalkerEntry :=
  {| type := blob; mode := 33188; oid := id; content := Resolves (Some text) |}.

Definition empty_tree : Tree := {[ "." := root_entry ]}.

Definition first_commit : Tree :=
  <[ "page-1.md" := file "oid-1" "# This is the first page" ]> empty_tree.

Definition second_commit : Tree :=
  <[ "page-2.md" := file "oid-2" "# This is the second page" ]> first_commit.

Definition edited_commit : Tree :=
  <[ "page-1.md" := file "oid-3" "# This is the edited page" ]> empty_tree.

(** A file with the executable bit set. *)
Definition executable (id text : string) : WalkerEntry :=
  {| type := blob; mode := 33261; oid := id; content := Resolves (Some text) |}.

Definition chmod_commit : Tree :=
  <[ "page-1.md" := executable "oid-1" "# This is the first page" ]> empty_tree.

(** A snapshot with a directory. *)
Definition docs_commit : Tree :=
  <[ "docs" := {| type := tree; mode := 16384; oid := "oid-docs";
                  content := Resolves None |} ]>
  (<[ "docs/intro.md" := file "oid-4" "Intro" ]> first_commit).

(** The record of the first page added, under [UnifiedPatch]. *)
Definition first_page_added : ChangeRecord :=
  {| diff := Js.join Js.NL
       [ "--- page-1.md"; "+++ page-1.md"; "@@ -0,0 +1,1 @@";
         "+# This is the first page"; "\ No newline at end of file"; "" ];
     new_path := Some "page-1.md"; old_path := None;
     a_mode := None; b_mode := Some "33188";
     new_file := true; renamed_file := false; deleted_file := false |}.

(** The record of the first page removed. *)
Definition first_page_removed : ChangeRecord :=
  {| diff := Js.join Js.NL
       [ "--- page-1.md"; "+++ page-1.md"; "@@ -1,1 +0,0 @@";
         "-# This is the first page"; "\ No newline at end of file"; "" ];
     new_path := None; old_path := Some "page-1.md";
     a_mode := Some "33188"; b_mode := None;
     new_file := false; renamed_file := false; deleted_file := true |}.

(** The record of the first page edited. *)
Definition first_page_edited : ChangeRecord :=
  {| diff := Js.join Js.NL
       [ "--- page-1.md"; "+++ page-1.md"; "@@ -1,1 +1,1 @@";
         "-# This is the first page"; "\ No newline at end of file";
         "+# This is the edited page"; "\ No newline at end of file"; "" ];
     new_path := Some "page-1.md"; old_path := Some "page-1.md";
     a_mode := Some "33188"; b_mode := Some "33188";
     new_file := false; renamed_file := false; deleted_file := false |}.

(** The record of the edit undone. *)
Definition first_page_restored : ChangeRecord :=
  {| diff := Js.join Js.NL
       [ "--- page-1.md"; "+++ page-1.md"; "@@ -1,1 +1,1 @@";
         "-# This is the edited page"; "\ No newline at end of file";
         "+# This is the first page"; "\ No newline at end of file"; "" ];
     new_path := Some "page-1.md"; old_path := Some "page-1.md";
     a_mode := Some "33188"; b_mode := Some "33188";
     new_file := false; renamed_file := false; deleted_file := false |}.

(** A file of two lines, and the same file with the lines exchanged. *)
Definition xy_commit : Tree :=
  <[ "order.txt" := file "oid-xy" (Js.join Js.NL [ "x"; "y"; "" ]) ]> empty_tree.

Definition yx_commit : Tree :=
  <[ "order.txt" := file "oid-yx" (Js.join Js.NL [ "y"; "x"; "" ]) ]> empty_tree.

(** A snapshot with a submodule link beside the first page. *)
Definition vendor_commit : Tree :=
  <[ "vendor" := {| type := commit; mode := 57344; oid := "oid-sub";
                    content := Resolves None |} ]> first_commit.

(** A first commit that also adds a submodule link whose commit is not in
    the object store. *)
Definition dangling_commit : Tree :=
  <[ "vendor" := {| type := commit; mode := 57344; oid := "oid-sub";
                    content := Rejects "NotFoundError" |} ]> first_commit.

(** An entry whose mode is zero. *)
Definition modeless (id text : string) : WalkerEntry :=
  {| type := blob; mode := 0; oid := id; content := Resolves (Some text) |}.

(** ** The commit against its first parent *)

Module Commit.
Section Diff.

Variable createPatch : string -> string -> string -> string.

(** The repository as the code reads it, for ids that resolve:
    [commit.commit.parent] of the commit [git.readCommit] finds, and the
    snapshot [git.TREE({ ref })] stands for. *)
Variable parent : string -> list string.
Variable TREE : string -> Tree.

Definition empty_tree_ref : string := "4b825dc642cb6eb9a060e54bf8d69288fbee4904".

(** [diff(dir, sha)]: side A is [parent?.[0] || empty_tree_ref]. *)
Definition diff (sha : string) : Result (list ChangeRecord) :=
  let ref :=
    match head (parent sha) with
    | Some p => if String.eqb p "" then empty_tree_ref else p
    | None => empty_tree_ref
    end in
  walk createPatch (TREE ref) (TREE sha).

End Diff.
End Commit.

(** The repository [main] builds: a first commit without parent that adds
    page-1.md, and a second commit on top of it that adds page-2.md. *)
Definition main_parent (sha : string) : list string :=
  if String.eqb sha "commit-2" then ["commit-1"] else [].

Definition main_TREE (ref : string) : Tree :=
  if String.eqb ref "commit-1" then first_commit
  else if String.eqb ref "commit-2" then second_commit
  else empty_tree.

Definition second_page_added : ChangeRecord :=
  {| diff := Js.join Js.NL
       [ "--- page-2.md"; "+++ page-2.md"; "@@ -0,0 +1,1 @@";
         "+# This is the second page"; "\ No newline at end of file"; "" ];
     new_path := Some "page-2.md"; old_path := None;
     a_mode := None; b_mode := Some "33188";
     new_file := true; renamed_file := false; deleted_file := false |}.

(** ** Vocabulary of the properties *)

(** The text a side contributes to the patch: its decoded content, the empty
    text when the side or its content is absent. *)
Definition text_of (E : option WalkerEntry) : string :=
  match fetch E with
  | Ok bytes => Js.nullish bytes ""
  | Throw _ => ""
  end.

(** A mode as the record shows it: null for an absent or zero mode, else its
    decimal string. *)
Definition mode_field (m : option Z) : option string :=
  match m with
  | Some z => if Z.eqb z 0 then None else Some (Js.String_of (Some z))
  | None => None
  end.

(** The change kind a record stands for, read off its flags. *)
Definition record_kind (r : ChangeRecord) : ChangeType :=
  if new_file r then add
  else if deleted_file r then remove
  else modify.

Definition result_kind (res : option ChangeRecord) : ChangeType :=
  match res with
  | Some r => record_kind r
  | None => equal
  end.

(** Follows the specification's wording (4.2): the kind decided from the two
    content identities, where both are not absent at once. *)
Definition spec_kind (idA idB : option string) : option ChangeType :=
  match idA, idB with
  | Some a, Some b => if String.eqb a b then Some equal else Some modify
  | None, Some _ => Some add
  | Some _, None => Some remove
  | None, None => None
  end.

(** The record is about path [p]. *)
Definition about (p : string) (r : ChangeRecord) : Prop :=
  new_path r = Some p \/ old_path r = Some p.

#[global] Instance about_dec p r : Decision (about p r).
Proof. unfold about. apply _. Defined.

(** Exactly one of three conditions. *)
Definition exactly_one (a b c : bool) : bool :=
  match a, b, c with
  | true, false, false | false, true, false | false, false, true => true
  | _, _, _ => false
  end.

(** The three shapes of a record: added, deleted, or modified in place. *)
Definition shape_count_ok (r : ChangeRecord) : bool :=
  exactly_one (new_file r) (deleted_file r)
    (negb (new_file r) && negb (deleted_file r)
       && bool_decide (old_path r = new_path r)).

(** A line of the preamble of a patch: the [Index:] line, the rule, or a
    [---] / [+++] file line. *)
Definition is_header_line (l : string) : bool :=
  String.prefix "Index: " l || String.prefix "===" l
  || String.prefix "--- " l || String.prefix "+++ " l.

(** The lines of a text: the pieces between its line feeds, without the
    empty piece after a final line feed; the empty text has no line. *)
Definition lines_of (text : string) : list string :=
  UnifiedPatch.text_lines text.

(** An added line of a diff body: it starts with a plus sign and is not the
    [+++] file line. Likewise a deleted line, with a minus sign. *)
Definition is_addition (l : string) : bool :=
  String.prefix "+" l && negb (String.prefix "+++ " l).

Definition is_deletion (l : string) : bool :=
  String.prefix "-" l && negb (String.prefix "--- " l).

Definition unsigned (l : string) : string :=
  match l with
  | String _ rest => rest
  | EmptyString => l
  end.

(** The lines a diff body adds, and the lines it deletes, in order and
    without their sign. *)
Definition additions (d : string) : list string :=
  unsigned <$> List.filter is_addition (Js.split Js.nl d).

Definition deletions (d : string) : list string :=
  unsigned <$> List.filter is_deletion (Js.split Js.nl d).

(** Two diff bodies that are each other's reversal: what one adds the other
    deletes, and what one deletes the other adds. *)
Definition reversed (d d' : string) : Prop :=
  additions d = deletions d' /\ deletions d = additions d'.

#[global] Instance reversed_dec d d' : Decision (reversed d d').
Proof. unfold reversed. apply _. Defined.

(** Two records that mirror each other at a path with entries [A] and [B],
    for a patch generator [cp]: an add and a remove of the path, or two
    modifies of it; the body of the one is the cut patch of the text of [A]
    against the text of [B], the body of the other the cut patch of the text
    of [B] against the text of [A]. *)
Inductive MirrorAt (cp : string -> string -> string -> string)
  (p : string) (A B : option WalkerEntry)
  : ChangeRecord -> ChangeRecord -> Prop :=
| Mirror_add_remove r r' :
    A = None ->
    record_kind r = add -> record_kind r' = remove ->
    new_path r = Some p -> old_path r = None ->
    old_path r' = Some p -> new_path r' = None ->
    a_mode r = b_mode r' -> b_mode r = a_mode r' ->
    diff r = removeNoiseFromPatch (cp p (text_of A) (text_of B)) ->
    diff r' = removeNoiseFromPatch (cp p (text_of B) (text_of A)) ->
    MirrorAt cp p A B r r'
| Mirror_remove_add r r' :
    B = None ->
    record_kind r = remove -> record_kind r' = add ->
    old_path r = Some p -> new_path r = None ->
    new_path r' = Some p -> old_path r' = None ->
    a_mode r = b_mode r' -> b_mode r = a_mode r' ->
    diff r = removeNoiseFromPatch (cp p (text_of A) (text_of B)) ->
    diff r' = removeNoiseFromPatch (cp p (text_of B) (text_of A)) ->
    MirrorAt cp p A B r r'
| Mirror_modify r r' :
    is_Some A -> is_Some B ->
    record_kind r = modify -> record_kind r' = modify ->
    new_path r = Some p -> old_path r = Some p ->
    new_path r' = Some p -> old_path r' = Some p ->
    diff r = removeNoiseFromPatch (cp p (text_of A) (text_of B)) ->
    diff r' = removeNoiseFromPatch (cp p (text_of B) (text_of A)) ->
    MirrorAt cp p A B r r'.

(** Two records that mirror each other at some path of two snapshots. *)
Definition Mirror cp (treeA treeB : Tree) (r r' : ChangeRecord) : Prop :=
  exists p, MirrorAt cp p (treeA !! p) (treeB !! p) r r'.

(** What the callback returns in one direction mirrors what it returns in
    the other. *)
Definition mirrored cp p A B (res res' : option ChangeRecord) : Prop :=
  match res, res' with
  | Some r, Some r' => MirrorAt cp p A B r r'
  | None, None => True
  | _, _ => False
  end.

(** Every content the callback may ask for at a visit resolves. *)
Definition resolving (vs : list Visit) : Prop :=
  forall p A B, (p, (A, B)) ∈ vs ->
    (exists bytes, fetch A = Ok bytes) /\ (exists bytes, fetch B = Ok bytes).

(** The other direction of a visit. *)
Definition swap_visit (v : Visit) : Visit := (v.1, (v.2.2, v.2.1)).

(** A visited leaf path: not the root, and no side's entry is a directory. *)
Definition leaf (v : Visit) : Prop :=
  v.1 <> "." /\ type <$> v.2.1 <> Some tree /\ type <$> v.2.2 <> Some tree.

#[global] Instance leaf_dec v : Decision (leaf v).
Proof. unfold leaf. apply _. Defined.

(** What the callback can see of an entry's content: its text, an absent
    blob counting as the empty text, or the rejection. *)
Definition content_seen (e : WalkerEntry) : Result string :=
  match content e with
  | Resolves bytes => Ok (Js.nullish bytes "")
  | Rejects reason => Throw (Rejected reason)
  end.

(** Two entries with the same answer to "is it a directory", the same mode,
    the same oid and the same text, absent content counting as empty. *)
Definition alike (e e' : WalkerEntry) : Prop :=
  (type e = tree <-> type e' = tree)
  /\ mode e = mode e' /\ oid e = oid e'
  /\ content_seen e = content_seen e'.

Definition alike_side (E E' : option WalkerEntry) : Prop :=
  match E, E' with
  | Some e, Some e' => alike e e'
  | None, None => True
  | _, _ => False
  end.

(** A leaf path whose content identity is not the same on the two sides, an
    absent side having none. *)
Definition changed_leaf (treeA treeB : Tree) (p : string) : Prop :=
  leaf (p, (treeA !! p, treeB !! p))
  /\ oid <$> treeA !! p <> oid <$> treeB !! p.

(** A submodule link: no content behind it. *)
Definition gitlink (id : string) : WalkerEntry :=
  {| type := commit; mode := 33188; oid := id; content := Resolves None |}.


(** ** Lines of a text *)

Section Lines.

Local Abbreviation lines := (Js.split Js.nl).
Local Abbreviation unlines := (Js.join Js.NL).

Lemma split_nonempty sep s : Js.split sep s <> [].
Proof.
  destruct s as [|c s]; simpl; [done|].
  destruct (Ascii.eqb c sep); [done|].
  by destruct (Js.split sep s).
Qed.

(** Every piece of a split is free of line feeds. *)
Lemma split_one_line s : Forall (fun l => Js.one_line l = true) (lines s).
Proof.
  induction s as [|c s IH]; simpl.
  - by repeat constructor.
  - destruct (Ascii.eqb c Js.nl) eqn:Hc.
    + by constructor.
    + destruct (lines s) as [|piece pieces]; simpl.
      * repeat constructor. simpl. by rewrite Hc.
      * inversion IH; subst. constructor; [|done].
        simpl. by rewrite Hc.
Qed.

(** A first line, a line feed, and the rest. *)
Lemma split_first_line l rest :
  Js.one_line l = true ->
  lines (l +:+ Js.NL +:+ rest) = l :: lines rest.
Proof.
  induction l as [|c l IH]; simpl; intros Hl.
  - done.
  - apply andb_true_iff in Hl as [Hc Hl].
    apply negb_true_iff in Hc. rewrite Hc.
    by rewrite (IH Hl).
Qed.

Lemma split_single l : Js.one_line l = true -> lines l = [l].
Proof.
  induction l as [|c l IH]; simpl; intros Hl; [done|].
  apply andb_true_iff in Hl as [Hc Hl].
  apply negb_true_iff in Hc. rewrite Hc.
  by rewrite (IH Hl).
Qed.

(** Joining the pieces of a split gives the text back. *)
Lemma join_split s : unlines (lines s) = s.
Proof.
  induction s as [|c s IH]; simpl; [done|].
  destruct (Ascii.eqb c Js.nl) eqn:Hc.
  - apply Ascii.eqb_eq in Hc as ->.
    destruct (lines s) as [|piece pieces] eqn:E.
    + by apply split_nonempty in E.
    + unfold Js.join in *. simpl in *. by rewrite IH.
  - destruct (lines s) as [|piece pieces] eqn:E.
    + by apply split_nonempty in E.
    + unfold Js.join in *. simpl in *.
      destruct pieces; simpl in *; by rewrite <- IH.
Qed.

(** Splitting a join of line-feed-free pieces gives the pieces back. *)
Lemma split_join ls :
  ls <> [] -> Forall (fun l => Js.one_line l = true) ls ->
  lines (unlines ls) = ls.
Proof.
  induction ls as [|l ls IH]; [done|].
  intros _ Hall. inversion Hall as [|? ? Hl Hls]; subst.
  destruct ls as [|l' ls].
  - unfold Js.join. simpl. by apply split_single.
  - unfold Js.join in *. simpl in *.
    change (String.append l (String.append Js.NL ?r))
      with (l +:+ Js.NL +:+ r).
    rewrite split_first_line by done.
    f_equal. by apply IH.
Qed.

(** The pieces of the patch after the second are the lines of the cut
    patch, whenever there are any. *)
Lemma removeNoise_lines patch l :
  l ∈ drop 2 (lines patch) -> l ∈ lines (removeNoiseFromPatch patch).
Proof.
  intros Hin. unfold removeNoiseFromPatch, Js.slice.
  rewrite split_join; [done| |].
  - intros E. rewrite E in Hin. by apply elem_of_nil in Hin.
  - apply Forall_drop, split_one_line.
Qed.

(** Cutting the patch removes the first two lines and their line feeds and
    nothing else. *)
Lemma removeNoise_two_lines l1 l2 rest :
  Js.one_line l1 = true -> Js.one_line l2 = true ->
  removeNoiseFromPatch (l1 +:+ Js.NL +:+ l2 +:+ Js.NL +:+ rest) = rest.
Proof.
  intros H1 H2. unfold removeNoiseFromPatch, Js.slice.
  rewrite split_first_line by done.
  rewrite split_first_line by done.
  simpl. apply join_split.
Qed.

(** A patch of fewer than three lines is cut to nothing. *)
Lemma removeNoise_short patch :
  length (lines patch) <= 2 -> removeNoiseFromPatch patch = "".
Proof.
  intros Hlen. unfold removeNoiseFromPatch, Js.slice.
  rewrite drop_ge by done. done.
Qed.

End Lines.

(** ** The run of [main] *)

Example removeNoise_sample :
  removeNoiseFromPatch
    (UnifiedPatch.createPatch "page-1.md" "" "# This is the first page")
  = diff first_page_added.
Proof. vm_compute. reflexivity. Qed.

Example diff_first_commit :
  Commit.diff UnifiedPatch.createPatch main_parent main_TREE "commit-1"
  = Ok [first_page_added].
Proof. vm_compute. reflexivity. Qed.

Example diff_second_commit :
  Commit.diff UnifiedPatch.createPatch main_parent main_TREE "commit-2"
  = Ok [second_page_added].
Proof. vm_compute. reflexivity. Qed.

Example diff_dangling_gitlink :
  walk UnifiedPatch.createPatch empty_tree dangling_commit
  = Throw (Rejected "NotFoundError").
Proof. vm_compute. reflexivity. Qed.

Example walk_order :
  paths docs_commit second_commit
  = [ "."; "docs"; "docs/intro.md"; "page-1.md"; "page-2.md" ].
Proof. vm_compute. reflexivity. Qed.

(** ** The callback, case by case *)

Section CallbackFacts.

Variable cp : string -> string -> string -> string.

Lemma mode_field_truthy m :
  (if Js.truthy m then Some (Js.String_of m) else None) = mode_field m.
Proof. destruct m as [z|]; simpl; [|done]. by destruct (Z.eqb z 0). Qed.

Lemma map_root A B : map cp "." A B = Ok None.
Proof. done. Qed.

Lemma map_not_leaf p A B : ~ leaf (p, (A, B)) -> map cp p A B = Ok None.
Proof.
  intros Hn. unfold map.
  destruct (String.eqb p ".") eqn:Hp; [done|].
  apply String.eqb_neq in Hp.
  destruct (bool_decide (type <$> A = Some tree)) eqn:HA; [done|].
  destruct (bool_decide (type <$> B = Some tree)) eqn:HB; [done|].
  apply bool_decide_eq_false in HA, HB.
  destruct Hn. by repeat split.
Qed.

Lemma text_of_fetch E bytes :
  fetch E = Ok bytes -> text_of E = Js.nullish bytes "".
Proof. unfold text_of. by intros ->. Qed.

(** What the callback answers at a leaf, by presence of the two sides: it
    asks for the content of the sides it diffs, the old one first, and
    returns the record if they resolve. *)
Lemma map_leaf p A B :
  leaf (p, (A, B)) ->
  map cp p A B =
    match A, B with
    | None, None => Throw (Weird p)
    | None, Some b =>
        fetch (Some b) ≫= fun _ =>
        Ok (Some {|
          diff := removeNoiseFromPatch (cp p "" (text_of (Some b)));
          new_path := Some p; old_path := None;
          a_mode := None; b_mode := mode_field (Some (mode b));
          new_file := true; renamed_file := false; deleted_file := false |})
    | Some a, None =>
        fetch (Some a) ≫= fun _ =>
        Ok (Some {|
          diff := removeNoiseFromPatch (cp p (text_of (Some a)) "");
          new_path := None; old_path := Some p;
          a_mode := mode_field (Some (mode a)); b_mode := None;
          new_file := false; renamed_file := false; deleted_file := true |})
    | Some a, Some b =>
        if decide (oid a = oid b) then Ok None
        else
          fetch (Some a) ≫= fun _ =>
          fetch (Some b) ≫= fun _ =>
          Ok (Some {|
            diff :=
              removeNoiseFromPatch (cp p (text_of (Some a)) (text_of (Some b)));
            new_path := Some p; old_path := Some p;
            a_mode := mode_field (Some (mode a));
            b_mode := if Z.eqb (mode b) 0 then None
                      else Some (Js.String_of (Some (mode a)));
            new_file := false; renamed_file := false; deleted_file := false |})
    end.
Proof.
  intros (Hp & HA & HB); simpl in *. unfold map.
  apply String.eqb_neq in Hp. rewrite Hp.
  rewrite (bool_decide_eq_false_2 _ HA), (bool_decide_eq_false_2 _ HB).
  simpl. unfold change_type, text_of, fetch.
  destruct A as [a|], B as [b|]; simpl; [| | |done].
  - destruct (decide (oid a = oid b)) as [E|E].
    + by rewrite decide_True by congruence.
    + rewrite decide_False by congruence.
      destruct (content a), (content b); simpl; try done.
      by destruct (Z.eqb (mode a) 0), (Z.eqb (mode b) 0).
  - destruct (content a); simpl; [|done]. by destruct (Z.eqb (mode a) 0).
  - destruct (content b); simpl; [|done]. by destruct (Z.eqb (mode b) 0).
Qed.

End CallbackFacts.

(** ** The walker's visits *)

Section VisitFacts.

Implicit Types treeA treeB : Tree.

Lemma elem_of_paths treeA treeB p :
  p ∈ paths treeA treeB <-> is_Some (treeA !! p) \/ is_Some (treeB !! p).
Proof.
  unfold paths. rewrite merge_sort_Permutation, elem_of_elements.
  rewrite elem_of_union. by rewrite !elem_of_dom.
Qed.

Lemma NoDup_paths treeA treeB : NoDup (paths treeA treeB).
Proof.
  unfold paths. rewrite merge_sort_Permutation. apply NoDup_elements.
Qed.

Lemma paths_comm treeA treeB : paths treeA treeB = paths treeB treeA.
Proof. unfold paths. f_equal. f_equal. apply (comm_L (∪)). Qed.

Lemma visits_paths treeA treeB : (visits treeA treeB).*1 = paths treeA treeB.
Proof.
  unfold visits. rewrite <- list_fmap_compose. simpl.
  induction (paths treeA treeB) as [|p ps IH]; simpl; by f_equal.
Qed.

Lemma elem_of_visits treeA treeB p a b :
  (p, (a, b)) ∈ visits treeA treeB <->
  a = treeA !! p /\ b = treeB !! p /\ (is_Some a \/ is_Some b).
Proof.
  unfold visits. rewrite list_elem_of_fmap. split.
  - intros (q & [= -> -> ->] & Hq). by apply elem_of_paths in Hq.
  - intros (-> & -> & Hs). exists p. split; [done|]. by apply elem_of_paths.
Qed.

(** The walk in the other direction makes the same visits, sides
    exchanged. *)
Lemma visits_swap treeA treeB :
  visits treeB treeA = swap_visit <$> visits treeA treeB.
Proof.
  unfold visits. rewrite (paths_comm treeB treeA), <- list_fmap_compose.
  done.
Qed.

End VisitFacts.

(** ** Collecting the records *)

Section CollectFacts.

Variable cp : string -> string -> string -> string.

Lemma collect_cons p A B vs :
  collect cp ((p, (A, B)) :: vs) =
    match map cp p A B with
    | Ok r =>
        match collect cp vs with
        | Ok rs => Ok (option_list r ++ rs)
        | Throw m => Throw m
        end
    | Throw m => Throw m
    end.
Proof. simpl. by destruct (map cp p A B). Qed.

(** The callback throws the error of line 50 exactly at a leaf with no
    entry on either side, and for that path. *)
Lemma map_Weird p A B q :
  map cp p A B = Throw (Weird q) <->
  leaf (p, (A, B)) /\ A = None /\ B = None /\ q = p.
Proof.
  destruct (decide (leaf (p, (A, B)))) as [Hl|Hl].
  - rewrite (map_leaf cp p A B Hl). unfold fetch.
    destruct A as [a|], B as [b|]; try case_decide;
      try destruct (content a); try destruct (content b); simpl; split;
      try (intros [=]; by subst); try (intros (_ & ? & ? & ?); by subst).
  - rewrite (map_not_leaf cp p A B Hl). split; [done|by intros [? _]].
Qed.

(** Any other error of the callback is the rejection of a content it asked
    for, at a leaf whose two sides differ in content identity. *)
Lemma map_Rejected p A B reason :
  map cp p A B = Throw (Rejected reason) ->
  leaf (p, (A, B)) /\ oid <$> A <> oid <$> B
  /\ (fetch A = Throw (Rejected reason) \/ fetch B = Throw (Rejected reason)).
Proof.
  destruct (decide (leaf (p, (A, B)))) as [Hl|Hl].
  - rewrite (map_leaf cp p A B Hl). intros Hm. split; [done|].
    destruct A as [a|], B as [b|]; [| | |done].
    + case_decide as E; [done|]. split; [by intros [= ?]|].
      destruct (fetch (Some a)) as [ta|ea] eqn:Ha; simpl in Hm.
      * destruct (fetch (Some b)) as [tb|eb] eqn:Hb; simpl in Hm; [done|].
        right. congruence.
      * left. congruence.
    + split; [done|]. destruct (fetch (Some a)) eqn:Ha; simpl in Hm; [done|].
      left. congruence.
    + split; [done|]. destruct (fetch (Some b)) eqn:Hb; simpl in Hm; [done|].
      right. congruence.
  - by rewrite (map_not_leaf cp p A B Hl).
Qed.

(** Where the contents resolve and a side has an entry, the callback
    returns. *)
Lemma map_returns p A B :
  (exists bytes, fetch A = Ok bytes) -> (exists bytes, fetch B = Ok bytes) ->
  (leaf (p, (A, B)) -> is_Some A \/ is_Some B) ->
  exists res, map cp p A B = Ok res.
Proof.
  intros [ta Ha] [tb Hb] Hs.
  destruct (map cp p A B) as [res|[q|reason]] eqn:Hm; [by exists res| |].
  - apply map_Weird in Hm as (Hl & -> & -> & _).
    destruct (Hs Hl) as [[? ?]|[? ?]]; done.
  - apply map_Rejected in Hm as (_ & _ & [HA|HB]); congruence.
Qed.

(** Every collected record was returned by the callback at some visit. *)
Lemma collect_Ok_inv vs rs r :
  collect cp vs = Ok rs -> r ∈ rs ->
  exists p A B, (p, (A, B)) ∈ vs /\ map cp p A B = Ok (Some r).
Proof.
  revert rs. induction vs as [|[p [A B]] vs IH]; intros rs.
  - simpl. intros [= <-] Hr. by apply elem_of_nil in Hr.
  - rewrite collect_cons.
    destruct (map cp p A B) as [res|] eqn:Hm; [|done].
    destruct (collect cp vs) as [rs'|] eqn:Hc; [|done].
    intros [= <-] Hr. apply elem_of_app in Hr as [Hr|Hr].
    + destruct res as [r0|]; simpl in Hr.
      * apply list_elem_of_singleton in Hr as ->.
        exists p, A, B. split; [left|done].
      * by apply elem_of_nil in Hr.
    + destruct (IH rs' eq_refl Hr) as (q & A' & B' & Hin & Hq).
      exists q, A', B'. split; [by right|done].
Qed.

(** An aborted walk carries the error of a call that threw. *)
Lemma collect_Throw vs e :
  collect cp vs = Throw e ->
  exists p A B, (p, (A, B)) ∈ vs /\ map cp p A B = Throw e.
Proof.
  induction vs as [|[p [A B]] vs IH]; [done|].
  rewrite collect_cons.
  destruct (map cp p A B) as [res|e'] eqn:Hmap.
  - destruct (collect cp vs) as [rs'|e'] eqn:Hc; [done|].
    intros [= <-]. destruct (IH eq_refl) as (q & A' & B' & Hin & Hq).
    exists q, A', B'. split; [by right|done].
  - intros [= <-]. exists p, A, B. split; [left|done].
Qed.

(** A walk in which a call throws does not return. *)
Lemma collect_aborts vs p A B e :
  (p, (A, B)) ∈ vs -> map cp p A B = Throw e ->
  exists e', collect cp vs = Throw e'.
Proof.
  induction vs as [|[q [A' B']] vs IH]; intros Hin Hm.
  - by apply elem_of_nil in Hin.
  - rewrite collect_cons.
    destruct (map cp q A' B') as [res|e'] eqn:Hmap; [|by eexists].
    apply elem_of_cons in Hin as [[= -> -> ->]|Hin]; [congruence|].
    destruct (IH Hin Hm) as [e' ->]. by eexists.
Qed.

(** A walk whose calls all return, returns. *)
Lemma collect_returns vs :
  (forall p A B, (p, (A, B)) ∈ vs -> exists res, map cp p A B = Ok res) ->
  exists rs, collect cp vs = Ok rs.
Proof.
  intros Hall. destruct (collect cp vs) as [rs|e] eqn:Hc; [by exists rs|].
  destruct (collect_Throw vs e Hc) as (p & A & B & Hin & Hm).
  destruct (Hall p A B Hin) as [res Hres]. congruence.
Qed.

(** The walk of two snapshots returns when the contents of their entries
    resolve: every path it visits has an entry on a side at least. *)
Lemma walk_returns treeA treeB :
  resolving (visits treeA treeB) -> exists rs, walk cp treeA treeB = Ok rs.
Proof.
  intros Hres. apply collect_returns. intros p A B Hin.
  destruct (Hres p A B Hin) as [HA HB].
  apply map_returns; [done|done|]. intros _.
  by apply elem_of_visits in Hin as (_ & _ & Hs).
Qed.

End CollectFacts.

(** Case analysis of a call that returned a record. *)
Ltac map_inv H :=
  lazymatch type of H with
  | map ?cp ?p ?A ?B = Ok (Some _) =>
      let Hl := fresh "Hleaf" in
      destruct (decide (leaf (p, (A, B)))) as [Hl|Hl];
      [ rewrite (map_leaf cp p A B Hl) in H;
        destruct A as [?a|]; destruct B as [?b|];
        try case_decide;
        repeat match type of H with
               | context [fetch (Some ?e)] =>
                   let F := fresh "Hfetch" in
                   destruct (fetch (Some e)) eqn:F; simpl in H
               end;
        simplify_eq H; intros <-
      | rewrite (map_not_leaf cp p A B Hl) in H; discriminate H ]
  end.

(** ** Classification *)

(** C1. At a visited leaf path with an entry on a side at least, whatever
    the callback returns is of the kind the specification reads off the two
    content identities, and of nothing else: equal identities give no record,
    an identity on side B only an add record, on side A only a remove record,
    two different identities a modify record. With equal identities the call
    returns at once; otherwise it returns when the contents it asks for
    resolve, and a call that does not return ends with the rejection of one
    of them. *)
Theorem classification_by_identity cp p A B :
  leaf (p, (A, B)) -> is_Some A \/ is_Some B ->
  (forall res, map cp p A B = Ok res ->
     spec_kind (oid <$> A) (oid <$> B) = Some (result_kind res)
     /\ (res = None <-> spec_kind (oid <$> A) (oid <$> B) = Some equal))
  /\ (spec_kind (oid <$> A) (oid <$> B) = Some equal -> map cp p A B = Ok None)
  /\ ((exists bytes, fetch A = Ok bytes) -> (exists bytes, fetch B = Ok bytes) ->
      exists res, map cp p A B = Ok res)
  /\ (forall e, map cp p A B = Throw e ->
      exists reason, e = Rejected reason
        /\ (fetch A = Throw e \/ fetch B = Throw e)).
Proof.
  intros Hl Hs. split; [|split; [|split]].
  - intros res. rewrite (map_leaf cp p A B Hl).
    destruct A as [a|], B as [b|]; simpl.
    + case_decide as E.
      * intros [= <-]. by rewrite (proj2 (String.eqb_eq _ _) E).
      * rewrite (proj2 (String.eqb_neq _ _) E).
        destruct (fetch (Some a)); simpl; [|done].
        destruct (fetch (Some b)); simpl; [|done].
        by intros [= <-].
    + destruct (fetch (Some a)); simpl; [|done]. by intros [= <-].
    + destruct (fetch (Some b)); simpl; [|done]. by intros [= <-].
    + done.
  - rewrite (map_leaf cp p A B Hl).
    destruct A as [a|], B as [b|]; simpl; try done.
    destruct (String.eqb (oid a) (oid b)) eqn:E; [|done].
    apply String.eqb_eq in E. by rewrite decide_True.
  - intros HA HB. by apply map_returns.
  - intros [q|reason] Hm.
    + apply map_Weird in Hm as (_ & -> & -> & _).
      destruct Hs as [[? ?]|[? ?]]; done.
    + exists reason. split; [done|].
      by apply map_Rejected in Hm as (_ & _ & ?).
Qed.

Lemma classification_by_identity_witness :
  let cp := UnifiedPatch.createPatch in
  let A := Some (file "oid-1" "X") in
  let B := Some (file "oid-2" "Y") in
  leaf ("page-1.md", (A, B)) /\ (is_Some A \/ is_Some B)
  /\ exists res,
       map cp "page-1.md" A B = Ok res
       /\ spec_kind (oid <$> A) (oid <$> B) = Some (result_kind res)
       /\ (res = None <-> spec_kind (oid <$> A) (oid <$> B) = Some equal).
Proof.
  intros cp A B.
  assert (Hl : leaf ("page-1.md", (A, B)))
    by (repeat split; simpl; discriminate).
  assert (Hs : is_Some A \/ is_Some B) by (left; eexists; reflexivity).
  split; [exact Hl|]. split; [exact Hs|].
  destruct (classification_by_identity cp "page-1.md" A B Hl Hs)
    as (Hkind & _ & Hret & _).
  destruct Hret as [res Hres]; [by eexists|by eexists|].
  exists res. split; [exact Hres|]. exact (Hkind res Hres).
Defined.

(** ** The diff field *)

Lemma map_diff cp p A B r :
  map cp p A B = Ok (Some r) ->
  diff r = removeNoiseFromPatch (cp p (text_of A) (text_of B)).
Proof. intros H. map_inv H; done. Qed.

(** C2. The diff field of every record a walk collects is the patch text the
    generator gives for the old and the new text of the record's path, cut by
    exactly its first two lines: the remaining lines are kept as they are,
    and where the patch reads "line, line feed, line, line feed, rest" the
    field is that rest, character for character. *)
Theorem diff_field_is_cut_patch cp vs rs r :
  collect cp vs = Ok rs -> r ∈ rs ->
  exists p A B,
    (p, (A, B)) ∈ vs /\ about p r /\
    let patch := cp p (text_of A) (text_of B) in
    diff r = Js.join Js.NL (drop 2 (Js.split Js.nl patch))
    /\ (forall l, l ∈ drop 2 (Js.split Js.nl patch) -> l ∈ Js.split Js.nl (diff r))
    /\ (forall l1 l2 rest,
          Js.one_line l1 = true -> Js.one_line l2 = true ->
          patch = l1 +:+ Js.NL +:+ l2 +:+ Js.NL +:+ rest -> diff r = rest).
Proof.
  intros Hc Hr.
  destruct (collect_Ok_inv cp vs rs r Hc Hr) as (p & A & B & Hin & Hm).
  exists p, A, B. split; [done|]. split.
  { unfold about. map_inv Hm; simpl; auto. }
  pose proof (map_diff cp p A B r Hm) as Hd. simpl. rewrite Hd.
  split; [done|]. split.
  - intros l. apply removeNoise_lines.
  - intros l1 l2 rest H1 H2 ->. by apply removeNoise_two_lines.
Qed.

Lemma diff_field_is_cut_patch_witness :
  let cp := UnifiedPatch.createPatch in
  let vs := visits empty_tree first_commit in
  let r := first_page_added in
  collect cp vs = Ok [r] /\ r ∈ [r] /\
  exists p A B,
    (p, (A, B)) ∈ vs /\ about p r /\
    let patch := cp p (text_of A) (text_of B) in
    diff r = Js.join Js.NL (drop 2 (Js.split Js.nl patch))
    /\ (forall l, l ∈ drop 2 (Js.split Js.nl patch) -> l ∈ Js.split Js.nl (diff r))
    /\ (forall l1 l2 rest,
          Js.one_line l1 = true -> Js.one_line l2 = true ->
          patch = l1 +:+ Js.NL +:+ l2 +:+ Js.NL +:+ rest -> diff r = rest).
Proof.
  intros cp vs r.
  assert (Hc : collect cp vs = Ok [r]) by (vm_compute; reflexivity).
  assert (Hr : r ∈ [r]) by apply list_elem_of_here.
  split; [exact Hc|]. split; [exact Hr|].
  exact (diff_field_is_cut_patch cp vs [r] r Hc Hr).
Defined.

(** ** Shape of a record *)

Lemma map_record_shape cp p A B r :
  map cp p A B = Ok (Some r) ->
  renamed_file r = false
  /\ (new_path r = None -> deleted_file r = true)
  /\ (old_path r = None -> new_file r = true)
  /\ shape_count_ok r = true.
Proof.
  intros H. map_inv H; unfold shape_count_ok; simpl;
    rewrite ?bool_decide_eq_true_2 by done; done.
Qed.

(** C8. Every record a walk collects has [renamed_file] false, a null
    [new_path] only when [deleted_file] is set, a null [old_path] only when
    [new_file] is set, and is of exactly one of the three shapes: new file,
    deleted file, or neither flag with [old_path] equal to [new_path]. *)
Theorem record_invariant cp vs rs r :
  collect cp vs = Ok rs -> r ∈ rs ->
  renamed_file r = false
  /\ (new_path r = None -> deleted_file r = true)
  /\ (old_path r = None -> new_file r = true)
  /\ exactly_one (new_file r) (deleted_file r)
       (negb (new_file r) && negb (deleted_file r)
          && bool_decide (old_path r = new_path r)) = true.
Proof.
  intros Hc Hr.
  destruct (collect_Ok_inv cp vs rs r Hc Hr) as (p & A & B & _ & Hm).
  exact (map_record_shape cp p A B r Hm).
Qed.

Lemma record_invariant_witness :
  let cp := UnifiedPatch.createPatch in
  let vs := visits first_commit empty_tree in
  let r := first_page_removed in
  collect cp vs = Ok [r] /\ r ∈ [r] /\
  renamed_file r = false
  /\ (new_path r = None -> deleted_file r = true)
  /\ (old_path r = None -> new_file r = true)
  /\ exactly_one (new_file r) (deleted_file r)
       (negb (new_file r) && negb (deleted_file r)
          && bool_decide (old_path r = new_path r)) = true.
Proof.
  intros cp vs r.
  assert (Hc : collect cp vs = Ok [r]) by (vm_compute; reflexivity).
  assert (Hr : r ∈ [r]) by apply list_elem_of_here.
  split; [exact Hc|]. split; [exact Hr|].
  exact (record_invariant cp vs [r] r Hc Hr).
Defined.

(** ** Mode fields *)

Lemma map_modes cp p A B r :
  map cp p A B = Ok (Some r) ->
  a_mode r = mode_field (mode <$> A)
  /\ match record_kind r with
     | add => A = None /\ b_mode r = mode_field (mode <$> B)
     | modify =>
         exists a b, A = Some a /\ B = Some b
           /\ b_mode r = if Z.eqb (mode b) 0 then None
                         else Some (Js.String_of (Some (mode a)))
     | remove => B = None /\ b_mode r = None
     | equal => False
     end.
Proof.
  intros H. map_inv H; simpl; (split; [done|]); [|done..].
  by exists a, b.
Qed.

(** C4, as the code has it. For every record a walk collects at a path: in
    a modify record [b_mode] is the decimal string of the A-side entry's
    mode when the B-side entry's mode is not zero, and null when it is zero;
    in a remove record, where side B has no entry, [b_mode] is null; in an
    add record [b_mode] comes from the B-side entry's mode. *)
Theorem b_mode_source cp vs rs r :
  collect cp vs = Ok rs -> r ∈ rs ->
  exists p A B,
    (p, (A, B)) ∈ vs /\ about p r /\
    match record_kind r with
    | add => b_mode r = mode_field (mode <$> B)
    | modify =>
        exists a b, A = Some a /\ B = Some b
          /\ b_mode r = if Z.eqb (mode b) 0 then None
                        else Some (Js.String_of (Some (mode a)))
    | remove => B = None /\ b_mode r = None
    | equal => False
    end.
Proof.
  intros Hc Hr.
  destruct (collect_Ok_inv cp vs rs r Hc Hr) as (p & A & B & Hin & Hm).
  exists p, A, B. split; [done|]. split.
  { unfold about. map_inv Hm; simpl; auto. }
  destruct (map_modes cp p A B r Hm) as [_ Hb].
  destruct (record_kind r); [apply Hb|exact Hb..].
Qed.

Lemma b_mode_source_witness :
  let cp := UnifiedPatch.createPatch in
  let vs := visits first_commit edited_commit in
  let r := first_page_edited in
  collect cp vs = Ok [r] /\ r ∈ [r] /\
  exists p A B,
    (p, (A, B)) ∈ vs /\ about p r /\
    match record_kind r with
    | add => b_mode r = mode_field (mode <$> B)
    | modify =>
        exists a b, A = Some a /\ B = Some b
          /\ b_mode r = if Z.eqb (mode b) 0 then None
                        else Some (Js.String_of (Some (mode a)))
    | remove => B = None /\ b_mode r = None
    | equal => False
    end.
Proof.
  intros cp vs r.
  assert (Hc : collect cp vs = Ok [r]) by (vm_compute; reflexivity).
  assert (Hr : r ∈ [r]) by apply list_elem_of_here.
  split; [exact Hc|]. split; [exact Hr|].
  exact (b_mode_source cp vs [r] r Hc Hr).
Defined.

(** C4 as stated fails on a remove record: the entry removed has mode
    33188, and [b_mode] is null, not "33188". *)
Lemma remove_b_mode_is_null :
  let A := Some (file "oid-1" "# This is the first page") in
  exists r,
    map UnifiedPatch.createPatch "page-1.md" A None = Ok (Some r)
    /\ record_kind r = remove
    /\ mode_field (mode <$> A) = Some "33188"
    /\ b_mode r = None
    /\ b_mode r <> mode_field (mode <$> A).
Proof. eexists. repeat split; vm_compute; discriminate. Qed.

(** C10, as the code has it. For every record a walk collects at a path:
    [a_mode] is null when the A-side mode is absent or zero and its decimal
    string otherwise; [b_mode] of an add record is the same function of the
    B-side mode; [b_mode] of a modify or remove record is null when the
    B-side mode is absent or zero, and otherwise [String] of the A-side
    mode, which is "0" for a zero mode. *)
Theorem mode_fields cp vs rs r :
  collect cp vs = Ok rs -> r ∈ rs ->
  exists p A B,
    (p, (A, B)) ∈ vs /\ about p r
    /\ a_mode r = mode_field (mode <$> A)
    /\ (record_kind r = add -> b_mode r = mode_field (mode <$> B))
    /\ (record_kind r <> add ->
        b_mode r = if Js.truthy (mode <$> B)
                   then Some (Js.String_of (mode <$> A)) else None)
    /\ mode_field None = None
    /\ mode_field (Some 0%Z) = None
    /\ (forall z, z <> 0%Z ->
        mode_field (Some z) = Some (NilZero.string_of_int (Z.to_int z))).
Proof.
  intros Hc Hr.
  destruct (collect_Ok_inv cp vs rs r Hc Hr) as (p & A & B & Hin & Hm).
  exists p, A, B. split; [done|]. split.
  { unfold about. map_inv Hm; simpl; auto. }
  split; [apply (map_modes cp p A B r Hm)|].
  split; [|split; [|split; [done|split; [done|]]]].
  - map_inv Hm; simpl; done.
  - map_inv Hm; simpl; try done; intros _; by destruct (Z.eqb (mode b) 0).
  - intros z Hz. unfold mode_field.
    by rewrite (proj2 (Z.eqb_neq z 0) Hz).
Qed.

Lemma mode_fields_witness :
  let cp := UnifiedPatch.createPatch in
  let vs := visits empty_tree first_commit in
  let r := first_page_added in
  collect cp vs = Ok [r] /\ r ∈ [r] /\
  exists p A B,
    (p, (A, B)) ∈ vs /\ about p r
    /\ a_mode r = mode_field (mode <$> A)
    /\ (record_kind r = add -> b_mode r = mode_field (mode <$> B))
    /\ (record_kind r <> add ->
        b_mode r = if Js.truthy (mode <$> B)
                   then Some (Js.String_of (mode <$> A)) else None)
    /\ mode_field None = None
    /\ mode_field (Some 0%Z) = None
    /\ (forall z, z <> 0%Z ->
        mode_field (Some z) = Some (NilZero.string_of_int (Z.to_int z))).
Proof.
  intros cp vs r.
  assert (Hc : collect cp vs = Ok [r]) by (vm_compute; reflexivity).
  assert (Hr : r ∈ [r]) by apply list_elem_of_here.
  split; [exact Hc|]. split; [exact Hr|].
  exact (mode_fields cp vs [r] r Hc Hr).
Defined.

(** C10 as stated fails whichever side [b_mode] is taken to be sourced
    from. A modify record whose A-side mode is zero and whose B-side mode is
    33188 has [b_mode] "0": neither null, the field of a zero mode, nor
    "33188", the field of the B-side mode. With ordinary modes, a modify
    record of an entry going from 33188 to 33261 has the A-side "33188" and
    not the field of the B-side mode, and a remove record of an entry of
    mode 33188 has a null [b_mode] and not the field of the A-side mode. *)
Lemma zero_mode_b_mode_is_0 :
  let cp := UnifiedPatch.createPatch in
  (exists r,
     map cp "page-1.md" (Some (modeless "oid-1" "X")) (Some (file "oid-2" "Y"))
       = Ok (Some r)
     /\ record_kind r = modify
     /\ b_mode r = Some "0"
     /\ b_mode r <> mode_field (Some 0%Z)
     /\ b_mode r <> mode_field (Some 33188%Z))
  /\ (exists r,
       map cp "page-1.md" (Some (file "oid-1" "X")) (Some (executable "oid-2" "Y"))
         = Ok (Some r)
       /\ record_kind r = modify
       /\ b_mode r = Some "33188"
       /\ b_mode r <> mode_field (Some 33261%Z))
  /\ (exists r,
       map cp "page-1.md" (Some (file "oid-1" "X")) None = Ok (Some r)
       /\ record_kind r = remove
       /\ b_mode r = None
       /\ b_mode r <> mode_field (Some 33188%Z)).
Proof.
  split; [|split]; eexists; repeat split; vm_compute; discriminate.
Qed.

(** ** Aborted walks *)

(** C5. The error of line 50 is thrown for a path exactly when the path is
    a visited leaf with no content identity on either side: the call there
    throws it before any record is built. A walk that ends with this error
    has visited such a path, for which the error is; and a walk that visits
    such a path is aborted and returns no list of records, with the error
    of line 50 unless the rejection of a content aborts it. *)
Theorem integrity_error_iff cp vs :
  (forall p A B q,
     map cp p A B = Throw (Weird q) <->
     leaf (p, (A, B)) /\ oid <$> A = None /\ oid <$> B = None /\ q = p)
  /\ (forall q, collect cp vs = Throw (Weird q) ->
        (q, (None, None)) ∈ vs /\ leaf (q, (None, None))
        /\ map cp q None None = Throw (Weird q))
  /\ ((exists p A B, (p, (A, B)) ∈ vs /\ leaf (p, (A, B))
                    /\ oid <$> A = None /\ oid <$> B = None) ->
      exists e, collect cp vs = Throw e
        /\ (resolving vs -> exists q, e = Weird q)).
Proof.
  split; [|split].
  - intros p A B q. rewrite map_Weird.
    destruct A, B; simpl; split; intros (? & ? & ? & ?); done.
  - intros q Hc.
    destruct (collect_Throw cp vs _ Hc) as (p & A & B & Hin & Hm).
    pose proof Hm as Hm'.
    apply map_Weird in Hm as (Hl & -> & -> & ->). done.
  - intros (p & A & B & Hin & Hl & HA & HB).
    assert (map cp p A B = Throw (Weird p)) as Hm.
    { apply map_Weird. by destruct A, B. }
    destruct (collect_aborts cp vs p A B _ Hin Hm) as [e He].
    exists e. split; [done|]. intros Hres.
    destruct e as [q|reason]; [by exists q|].
    destruct (collect_Throw cp vs _ He) as (p' & A' & B' & Hin' & Hm').
    apply map_Rejected in Hm' as (_ & _ & Hrej).
    destruct (Hres p' A' B' Hin') as [[? HA'] [? HB']].
    destruct Hrej; congruence.
Qed.

Lemma integrity_error_iff_witness :
  let cp := UnifiedPatch.createPatch in
  let vs : list Visit :=
    [ (".", (Some root_entry, Some root_entry)); ("page-1.md", (None, None)) ] in
  collect cp vs = Throw (Weird "page-1.md")
  /\ ("page-1.md", (None, None)) ∈ vs /\ leaf ("page-1.md", (None, None))
  /\ map cp "page-1.md" None None = Throw (Weird "page-1.md").
Proof.
  intros cp vs.
  assert (Hc : collect cp vs = Throw (Weird "page-1.md")) by reflexivity.
  split; [exact Hc|].
  exact (proj1 (proj2 (integrity_error_iff cp vs)) "page-1.md" Hc).
Defined.

(** ** Unchanged paths *)

Lemma map_equal_identity cp p a b :
  oid a = oid b -> map cp p (Some a) (Some b) = Ok None.
Proof.
  intros E. destruct (decide (leaf (p, (Some a, Some b)))) as [Hl|Hl].
  - rewrite (map_leaf cp p _ _ Hl). by rewrite decide_True.
  - by apply map_not_leaf.
Qed.

Lemma collect_nothing cp vs :
  (forall p A B, (p, (A, B)) ∈ vs -> map cp p A B = Ok None) ->
  collect cp vs = Ok [].
Proof.
  induction vs as [|[p [A B]] vs IH]; intros Hall; [done|].
  rewrite collect_cons, (Hall p A B) by left.
  rewrite IH; [done|]. intros q A' B' Hin. apply Hall. by right.
Qed.

(** C6. A path whose content identity is the same on both sides yields no
    record, whatever the two modes are; hence the walk of a snapshot against
    itself returns the empty list. *)
Theorem equal_identity_no_record cp :
  (forall p a b, oid a = oid b -> map cp p (Some a) (Some b) = Ok None)
  /\ (forall p a b, oid a = oid b -> mode a <> mode b ->
        map cp p (Some a) (Some b) = Ok None)
  /\ (forall tree : Tree, walk cp tree tree = Ok []).
Proof.
  split; [|split].
  - intros p a b. apply map_equal_identity.
  - intros p a b E _. by apply map_equal_identity.
  - intros t. apply collect_nothing. intros p A B Hin.
    apply elem_of_visits in Hin as (-> & -> & Hs).
    destruct (t !! p) as [e|]; [by apply map_equal_identity|].
    destruct Hs as [[? ?]|[? ?]]; done.
Qed.

Lemma equal_identity_no_record_witness :
  let cp := UnifiedPatch.createPatch in
  let a := file "oid-1" "# This is the first page" in
  let b := executable "oid-1" "# This is the first page" in
  oid a = oid b /\ mode a <> mode b
  /\ map cp "page-1.md" (Some a) (Some b) = Ok None
  /\ walk cp first_commit chmod_commit = Ok []
  /\ walk cp second_commit second_commit = Ok [].
Proof.
  intros cp a b.
  assert (Ho : oid a = oid b) by reflexivity.
  assert (Hm : mode a <> mode b) by discriminate.
  split; [exact Ho|]. split; [exact Hm|].
  split; [exact (proj1 (proj2 (equal_identity_no_record cp)) "page-1.md" a b Ho Hm)|].
  split; [vm_compute; reflexivity|].
  exact (proj2 (proj2 (equal_identity_no_record cp)) second_commit).
Defined.

(** ** Root and directories *)

Lemma map_about cp p A B r q :
  map cp p A B = Ok (Some r) -> about q r -> q = p.
Proof.
  intros H. unfold about. map_inv H; simpl; intros [E|E]; congruence.
Qed.

Lemma map_Some_leaf cp p A B r :
  map cp p A B = Ok (Some r) -> leaf (p, (A, B)) /\ about p r.
Proof.
  intros H. destruct (decide (leaf (p, (A, B)))) as [Hl|Hl].
  - split; [done|]. unfold about. map_inv H; simpl; auto.
  - rewrite (map_not_leaf cp p A B Hl) in H. discriminate H.
Qed.

(** C7, as the code has it. The callback returns nothing at the root path
    "." and nothing at a path where a side's entry is a directory; so a
    record of a walk is never about the root, nor about a path at which
    either snapshot has a directory. Any other entry can yield a record,
    whatever its type is, blob or not: added at a path other than the root,
    an entry that is not a directory and whose content resolves gives an add
    record. *)
Theorem no_record_for_root_or_directory cp :
  (forall A B, map cp "." A B = Ok None)
  /\ (forall p A B, type <$> A = Some tree \/ type <$> B = Some tree ->
        map cp p A B = Ok None)
  /\ (forall (treeA treeB : Tree) rs r p,
        walk cp treeA treeB = Ok rs -> r ∈ rs -> about p r ->
        p <> "." /\ type <$> treeA !! p <> Some tree
        /\ type <$> treeB !! p <> Some tree)
  /\ (forall p e bytes,
        p <> "." -> type e <> tree -> content e = Resolves bytes ->
        exists r, map cp p None (Some e) = Ok (Some r)
                  /\ record_kind r = add /\ new_path r = Some p).
Proof.
  split; [|split; [|split]].
  - intros A B. apply map_root.
  - intros p A B Ht. apply map_not_leaf. intros (_ & HA & HB).
    simpl in *. by destruct Ht.
  - intros treeA treeB rs r p Hw Hr Hp.
    destruct (collect_Ok_inv cp _ rs r Hw Hr) as (q & A & B & Hin & Hm).
    apply elem_of_visits in Hin as (-> & -> & _).
    rewrite (map_about cp q _ _ r p Hm Hp).
    by destruct (map_Some_leaf cp q _ _ r Hm) as [Hl _].
  - intros p e bytes Hp Ht Hc.
    assert (Hl : leaf (p, (None, Some e))).
    { repeat split; simpl; [done|done|]. by intros [= ?]. }
    rewrite (map_leaf cp p None (Some e) Hl).
    assert (fetch (Some e) = Ok bytes) as -> by (unfold fetch; by rewrite Hc).
    simpl. by eexists.
Qed.

Lemma no_record_for_root_or_directory_witness :
  let cp := UnifiedPatch.createPatch in
  let r := first_page_added in
  map cp "docs" None (docs_commit !! "docs") = Ok None
  /\ walk cp empty_tree first_commit = Ok [r] /\ r ∈ [r] /\ about "page-1.md" r
  /\ "page-1.md" <> "." /\ type <$> empty_tree !! "page-1.md" <> Some tree
  /\ type <$> first_commit !! "page-1.md" <> Some tree.
Proof.
  intros cp r.
  assert (Ht : type <$> None = Some tree \/ type <$> docs_commit !! "docs" = Some tree)
    by (right; vm_compute; reflexivity).
  assert (Hw : walk cp empty_tree first_commit = Ok [r]) by (vm_compute; reflexivity).
  assert (Hr : r ∈ [r]) by apply list_elem_of_here.
  assert (Hp : about "page-1.md" r) by (left; reflexivity).
  split; [exact (proj1 (proj2 (no_record_for_root_or_directory cp)) "docs" _ _ Ht)|].
  split; [exact Hw|]. split; [exact Hr|]. split; [exact Hp|].
  exact (proj1 (proj2 (proj2 (no_record_for_root_or_directory cp)))
           empty_tree first_commit [r] r "page-1.md" Hw Hr Hp).
Defined.

(** C7 as stated fails in its last clause: a submodule link added beside the
    first page is an entry of type commit, not a blob, and the walk returns
    a record for it. *)
Lemma gitlink_yields_record :
  let cp := UnifiedPatch.createPatch in
  exists e r,
    vendor_commit !! "vendor" = Some e
    /\ type e = commit /\ type e <> blob
    /\ walk cp first_commit vendor_commit = Ok [r]
    /\ new_file r = true /\ new_path r = Some "vendor"
    /\ b_mode r = Some "57344".
Proof.
  eexists _, _. repeat split; try (vm_compute; reflexivity). discriminate.
Qed.

(** ** One record for an added path *)

Lemma filter_about_result cp p q A B res :
  map cp q A B = Ok res -> p <> q -> filter (about p) (option_list res) = [].
Proof.
  intros Hm Hne. destruct res as [r|]; simpl; [|done].
  rewrite filter_cons_False; [done|].
  intros Hp. by apply (map_about cp q A B r p Hm) in Hp.
Qed.

Lemma collect_filter_absent cp vs rs p :
  collect cp vs = Ok rs -> p ∉ vs.*1 -> filter (about p) rs = [].
Proof.
  revert rs. induction vs as [|[q [A B]] vs IH]; intros rs.
  - by intros [= <-].
  - rewrite collect_cons.
    destruct (map cp q A B) as [res|] eqn:Hm; [|done].
    destruct (collect cp vs) as [rs'|] eqn:Hc; [|done].
    intros [= <-] Hnot. simpl in Hnot.
    apply not_elem_of_cons in Hnot as [Hne Hnot].
    rewrite filter_app, (filter_about_result cp p q A B res Hm Hne).
    by apply IH.
Qed.

Lemma collect_filter_at cp vs rs p A B r :
  collect cp vs = Ok rs -> NoDup vs.*1 -> (p, (A, B)) ∈ vs ->
  map cp p A B = Ok (Some r) -> filter (about p) rs = [r].
Proof.
  revert rs. induction vs as [|[q [A' B']] vs IH]; intros rs.
  - intros _ _ Hin. by apply elem_of_nil in Hin.
  - rewrite collect_cons.
    destruct (map cp q A' B') as [res|] eqn:Hm; [|done].
    destruct (collect cp vs) as [rs'|] eqn:Hc; [|done].
    intros [= <-] Hnd Hin Hr. simpl in Hnd.
    apply NoDup_cons in Hnd as [Hq Hnd].
    rewrite filter_app.
    apply elem_of_cons in Hin as [[= -> -> ->]|Hin].
    + rewrite Hm in Hr. injection Hr as ->. simpl.
      rewrite filter_cons_True by apply (map_Some_leaf cp q A' B' r Hm).
      rewrite filter_nil. simpl.
      by rewrite (collect_filter_absent cp vs rs' q Hc Hq).
    + assert (p <> q) as Hne.
      { intros ->. apply Hq. apply list_elem_of_fmap.
        by exists (q, (A, B)). }
      rewrite (filter_about_result cp p q A' B' res Hm Hne). simpl.
      by apply IH.
Qed.

(** C3, as the code has it. A path other than the root that only snapshot B
    has, as an entry that is not a directory and whose content resolves to
    the text [C], yields exactly one record of the walk about that path:
    [new_file] true, [old_path] null, [new_path] the path, [deleted_file] and
    [renamed_file] false, and as diff body the patch of the empty text
    against [C] cut by its first two lines. The body contains every line of
    [C] as an addition, provided the generator lists each of them as an
    added line after the second line of its patch; what else the generator
    prints after its second line, header lines included, is in the body
    too. *)
Theorem added_path_record cp (treeA treeB : Tree) p e C rs :
  p <> "." -> treeA !! p = None -> treeB !! p = Some e ->
  type e <> tree -> content e = Resolves (Some C) ->
  walk cp treeA treeB = Ok rs ->
  (forall l, l ∈ lines_of C ->
     ("+" +:+ l) ∈ drop 2 (Js.split Js.nl (cp p "" C))) ->
  exists r,
    filter (about p) rs = [r]
    /\ new_file r = true /\ old_path r = None /\ new_path r = Some p
    /\ deleted_file r = false /\ renamed_file r = false
    /\ diff r = removeNoiseFromPatch (cp p "" C)
    /\ (forall l, l ∈ lines_of C -> ("+" +:+ l) ∈ Js.split Js.nl (diff r))
    /\ (forall l, l ∈ drop 2 (Js.split Js.nl (cp p "" C)) ->
                  l ∈ Js.split Js.nl (diff r)).
Proof.
  intros Hp HA HB Ht HC Hw Hadds.
  assert (Hl : leaf (p, (None, Some e))).
  { repeat split; simpl; [done|done|]. by intros [= ?]. }
  assert (Hf : fetch (Some e) = Ok (Some C)) by (unfold fetch; by rewrite HC).
  pose proof (map_leaf cp p None (Some e) Hl) as Hm. simpl in Hm.
  rewrite Hf, (text_of_fetch _ _ Hf) in Hm. simpl in Hm.
  eexists. split.
  { apply (collect_filter_at cp (visits treeA treeB) rs p None (Some e)).
    - exact Hw.
    - rewrite visits_paths. apply NoDup_paths.
    - apply elem_of_visits. rewrite HA, HB. by eauto.
    - exact Hm. }
  simpl. repeat (split; [done|]). split.
  - intros l Hin. by apply removeNoise_lines, Hadds.
  - intros l. apply removeNoise_lines.
Qed.

Lemma added_path_record_witness :
  let cp := UnifiedPatch.createPatch in
  let C := "# This is the first page" in
  let e := file "oid-1" C in
  let rs := [first_page_added] in
  "page-1.md" <> "." /\ empty_tree !! "page-1.md" = None
  /\ first_commit !! "page-1.md" = Some e /\ type e <> tree
  /\ content e = Resolves (Some C)
  /\ walk cp empty_tree first_commit = Ok rs
  /\ (forall l, l ∈ lines_of C ->
       ("+" +:+ l) ∈ drop 2 (Js.split Js.nl (cp "page-1.md" "" C)))
  /\ exists r,
    filter (about "page-1.md") rs = [r]
    /\ new_file r = true /\ old_path r = None /\ new_path r = Some "page-1.md"
    /\ deleted_file r = false /\ renamed_file r = false
    /\ diff r = removeNoiseFromPatch (cp "page-1.md" "" C)
    /\ (forall l, l ∈ lines_of C -> ("+" +:+ l) ∈ Js.split Js.nl (diff r))
    /\ (forall l, l ∈ drop 2 (Js.split Js.nl (cp "page-1.md" "" C)) ->
                  l ∈ Js.split Js.nl (diff r)).
Proof.
  intros cp C e rs.
  assert (H1 : "page-1.md" <> ".") by discriminate.
  assert (H2 : empty_tree !! "page-1.md" = None) by (vm_compute; reflexivity).
  assert (H3 : first_commit !! "page-1.md" = Some e) by (vm_compute; reflexivity).
  assert (H4 : type e <> tree) by discriminate.
  assert (H5 : content e = Resolves (Some C)) by reflexivity.
  assert (H6 : walk cp empty_tree first_commit = Ok rs) by (vm_compute; reflexivity).
  assert (H7 : forall l, l ∈ lines_of C ->
            ("+" +:+ l) ∈ drop 2 (Js.split Js.nl (cp "page-1.md" "" C))).
  { intros l Hl. vm_compute in Hl.
    apply list_elem_of_singleton in Hl. rewrite Hl.
    vm_compute. do 3 right. left. }
  split; [exact H1|]. split; [exact H2|]. split; [exact H3|].
  split; [exact H4|]. split; [exact H5|]. split; [exact H6|].
  split; [exact H7|].
  exact (added_path_record cp empty_tree first_commit "page-1.md" e C rs
           H1 H2 H3 H4 H5 H6 H7).
Defined.

(** C3 as stated fails on the specification's own scenario: the record of
    "page-1.md" added to the empty snapshot has a diff body whose first two
    lines are the [---] and [+++] file lines of the patch; the addition of
    the content line comes after them. *)
Lemma added_body_keeps_file_lines :
  let r := first_page_added in
  walk UnifiedPatch.createPatch empty_tree first_commit = Ok [r]
  /\ take 2 (Js.split Js.nl (diff r)) = [ "--- page-1.md"; "+++ page-1.md" ]
  /\ existsb is_header_line (Js.split Js.nl (diff r)) = true
  /\ "+# This is the first page" ∈ Js.split Js.nl (diff r).
Proof.
  repeat split; try (vm_compute; reflexivity).
  vm_compute. do 3 right. left.
Qed.

(** ** The two directions of a walk *)

Lemma leaf_swap p A B : leaf (p, (A, B)) -> leaf (p, (B, A)).
Proof. intros (? & ? & ?). by repeat split. Qed.

Lemma map_swap cp p A B res :
  map cp p A B = Ok res ->
  exists res', map cp p B A = Ok res' /\ mirrored cp p A B res res'.
Proof.
  destruct (decide (leaf (p, (A, B)))) as [Hl|Hl].
  - rewrite (map_leaf cp p A B Hl), (map_leaf cp p B A (leaf_swap p A B Hl)).
    destruct A as [a|], B as [b|]; [| | |done].
    + destruct (decide (oid a = oid b)) as [E|E].
      * rewrite decide_True by done. intros [= <-]. by exists None.
      * rewrite decide_False by done.
        destruct (fetch (Some a)); simpl; [|done].
        destruct (fetch (Some b)); simpl; [|done].
        intros [= <-]. eexists. split; [done|]. simpl.
        by apply Mirror_modify.
    + destruct (fetch (Some a)); simpl; [|done].
      intros [= <-]. eexists. split; [done|]. simpl.
      by apply Mirror_remove_add.
    + destruct (fetch (Some b)); simpl; [|done].
      intros [= <-]. eexists. split; [done|]. simpl.
      by apply Mirror_add_remove.
  - rewrite (map_not_leaf cp p A B Hl).
    rewrite (map_not_leaf cp p B A); [|intros H; by apply Hl, leaf_swap].
    intros [= <-]. by exists None.
Qed.

Lemma collect_swap cp vs rs :
  collect cp vs = Ok rs ->
  exists rs',
    collect cp (swap_visit <$> vs) = Ok rs'
    /\ Forall2 (fun r r' => exists p A B,
                   (p, (A, B)) ∈ vs /\ MirrorAt cp p A B r r') rs rs'.
Proof.
  revert rs. induction vs as [|[p [A B]] vs IH]; intros rs.
  - intros [= <-]. by exists [].
  - rewrite fmap_cons. unfold swap_visit at 1. simpl fst. simpl snd.
    rewrite !collect_cons.
    destruct (map cp p A B) as [res|] eqn:Hm; [|done].
    destruct (collect cp vs) as [rs0|] eqn:Hc; [|done].
    intros [= <-].
    destruct (map_swap cp p A B res Hm) as (res' & -> & Hres).
    destruct (IH rs0 eq_refl) as (rs0' & -> & Hrs).
    eexists. split; [done|].
    apply Forall2_app.
    + destruct res as [r|], res' as [r'|]; simpl in *; try done.
      constructor; [|done]. exists p, A, B. split; [left|done].
    + eapply Forall2_impl; [exact Hrs|].
      intros r r' (q & A' & B' & Hin & HM).
      exists q, A', B'. split; [by right|done].
Qed.

(** C9, as the code has it. When the walk of A against B returns, so does
    the walk of B against A, and their records correspond one to one, in
    order: an add record to a remove record of the same path with
    [old_path] and [new_path] exchanged, a remove record to an add record
    likewise, and a modify record to a modify record of the same path. The
    diff body of a record is the cut patch of the A-side text against the
    B-side text of its path, that of the record it corresponds to the cut
    patch of the B-side text against the A-side text. *)
Theorem walk_mirror cp (treeA treeB : Tree) rs :
  walk cp treeA treeB = Ok rs ->
  exists rs',
    walk cp treeB treeA = Ok rs'
    /\ Forall2 (Mirror cp treeA treeB) rs rs'.
Proof.
  intros Hw.
  destruct (collect_swap cp _ rs Hw) as (rs' & Hw' & HF).
  exists rs'. split.
  - unfold walk. by rewrite visits_swap.
  - eapply Forall2_impl; [exact HF|].
    intros r r' (p & A & B & Hin & HM).
    apply elem_of_visits in Hin as (-> & -> & _). by exists p.
Qed.

Lemma walk_mirror_witness :
  let cp := UnifiedPatch.createPatch in
  let rs := [first_page_edited] in
  walk cp first_commit edited_commit = Ok rs
  /\ exists rs',
       walk cp edited_commit first_commit = Ok rs'
       /\ Forall2 (Mirror cp first_commit edited_commit) rs rs'.
Proof.
  intros cp rs.
  assert (Hw : walk cp first_commit edited_commit = Ok rs)
    by (vm_compute; reflexivity).
  split; [exact Hw|].
  exact (walk_mirror cp first_commit edited_commit rs Hw).
Defined.

(** C9 as stated fails on a file whose two lines are exchanged. A shortest
    line diff keeps one of the two lines and moves the other, in the one
    direction as in the other: forth it deletes and adds the line "x" (or
    "y"), back it deletes and adds the line "y" (or "x"). So what the body
    of the walk forth adds is not what the body of the walk back deletes,
    whichever line the generator chooses to keep. *)
Lemma exchanged_lines_not_reversed :
  (let cp := MinimalPatch.createPatch true in
   exists r r',
     walk cp xy_commit yx_commit = Ok [r]
     /\ walk cp yx_commit xy_commit = Ok [r']
     /\ record_kind r = modify /\ record_kind r' = modify
     /\ drop 3 (Js.split Js.nl (diff r)) = [ "-x"; " y"; "+x"; "" ]
     /\ drop 3 (Js.split Js.nl (diff r')) = [ "-y"; " x"; "+y"; "" ]
     /\ additions (diff r) = ["x"] /\ deletions (diff r') = ["y"]
     /\ ~ reversed (diff r) (diff r'))
  /\ (let cp := MinimalPatch.createPatch false in
      exists r r',
        walk cp xy_commit yx_commit = Ok [r]
        /\ walk cp yx_commit xy_commit = Ok [r']
        /\ record_kind r = modify /\ record_kind r' = modify
        /\ drop 3 (Js.split Js.nl (diff r)) = [ "+y"; " x"; "-y"; "" ]
        /\ drop 3 (Js.split Js.nl (diff r')) = [ "+x"; " y"; "-x"; "" ]
        /\ additions (diff r) = ["y"] /\ deletions (diff r') = ["x"]
        /\ ~ reversed (diff r) (diff r')).
Proof.
  split; eexists _, _; repeat split; try (vm_compute; reflexivity);
    intros [H _]; vm_compute in H; discriminate H.
Qed.

(** ** More on [removeNoiseFromPatch] *)

Lemma append_empty_r s : s +:+ "" = s.
Proof.
  induction s as [|c s IH]; [done|]. exact (f_equal (String c) IH).
Qed.

Lemma append_assoc s1 s2 s3 : (s1 +:+ s2) +:+ s3 = s1 +:+ s2 +:+ s3.
Proof.
  induction s1 as [|c s1 IH]; [done|]. exact (f_equal (String c) IH).
Qed.

Lemma join_cons_cons l l' ls :
  Js.join Js.NL (l :: l' :: ls) = l +:+ Js.NL +:+ Js.join Js.NL (l' :: ls).
Proof. done. Qed.

(** X1. The cut patch is always an end piece of the patch: the function
    drops characters from the front and changes none. *)
Theorem removeNoise_is_suffix patch :
  exists front, patch = front +:+ removeNoiseFromPatch patch.
Proof.
  unfold removeNoiseFromPatch, Js.slice.
  pose proof (join_split patch) as Hj.
  destruct (Js.split Js.nl patch) as [|l1 [|l2 [|l3 ls]]]; simpl drop.
  - exists patch. symmetry. apply append_empty_r.
  - exists patch. symmetry. apply append_empty_r.
  - exists patch. symmetry. apply append_empty_r.
  - exists (l1 +:+ Js.NL +:+ l2 +:+ Js.NL).
    rewrite <- Hj, !join_cons_cons.
    by rewrite !append_assoc.
Qed.

(** X2. The lines of the cut patch are the lines of the patch from the third
    on; a patch of one or two lines is cut to the empty text, which is one
    empty line. *)
Theorem removeNoise_lines_spec patch :
  Js.split Js.nl (removeNoiseFromPatch patch) =
    if decide (2 < length (Js.split Js.nl patch))
    then drop 2 (Js.split Js.nl patch)
    else [""].
Proof.
  unfold removeNoiseFromPatch, Js.slice.
  pose proof (split_one_line patch) as Hall.
  destruct (Js.split Js.nl patch) as [|l1 [|l2 [|l3 ls]]]; simpl drop;
    simpl length; case_decide; try lia; try done.
  apply split_join; [done|].
  by apply (Forall_drop _ 2) in Hall.
Qed.

(** X3. Cutting twice cuts four lines. *)
Theorem removeNoise_twice patch :
  removeNoiseFromPatch (removeNoiseFromPatch patch)
  = Js.join Js.NL (drop 4 (Js.split Js.nl patch)).
Proof.
  unfold removeNoiseFromPatch, Js.slice.
  pose proof (split_one_line patch) as Hall.
  destruct (Js.split Js.nl patch) as [|l1 [|l2 [|l3 ls]]]; try done.
  rewrite split_join; [done|done|].
  by apply (Forall_drop _ 2) in Hall.
Qed.

(** ** What the callback reads of an entry *)

Lemma alike_side_leaf p A A' B B' :
  alike_side A A' -> alike_side B B' ->
  leaf (p, (A, B)) -> leaf (p, (A', B')).
Proof.
  intros HA HB (Hp & Ha & Hb). simpl in *. repeat split; simpl; [done| |].
  - destruct A as [a|], A' as [a'|]; simpl in *; try done.
    destruct HA as (Ht & _). intros [= E]. apply Ha. f_equal. by apply Ht.
  - destruct B as [b|], B' as [b'|]; simpl in *; try done.
    destruct HB as (Ht & _). intros [= E]. apply Hb. f_equal. by apply Ht.
Qed.

Lemma alike_side_sym E E' : alike_side E E' -> alike_side E' E.
Proof.
  destruct E as [e|], E' as [e'|]; simpl; try done.
  intros (Ht & Hm & Ho & Hc). by repeat split; try apply Ht.
Qed.

(** X4. The callback reads of an entry only whether it is a directory, its
    mode, its oid and its text, an absent content counting as the empty
    text: entries alike in these give the same result, record or error. *)
Theorem callback_reads_four_things cp p A A' B B' :
  alike_side A A' -> alike_side B B' ->
  map cp p A B = map cp p A' B'.
Proof.
  intros HA HB.
  destruct (decide (leaf (p, (A, B)))) as [Hl|Hl].
  - rewrite (map_leaf cp p A B Hl).
    rewrite (map_leaf cp p A' B' (alike_side_leaf p A A' B B' HA HB Hl)).
    unfold text_of, fetch.
    destruct A as [a|], A' as [a'|], B as [b|], B' as [b'|];
      simpl in HA, HB; try done; simpl.
    + destruct HA as (_ & -> & -> & Ha), HB as (_ & -> & -> & Hb).
      unfold content_seen in Ha, Hb.
      destruct (content a), (content a'), (content b), (content b');
        simplify_eq; simpl; try done.
      by rewrite Ha, Hb.
    + destruct HA as (_ & -> & _ & Ha). unfold content_seen in Ha.
      destruct (content a), (content a'); simplify_eq; simpl; try done.
      by rewrite Ha.
    + destruct HB as (_ & -> & _ & Hb). unfold content_seen in Hb.
      destruct (content b), (content b'); simplify_eq; simpl; try done.
      by rewrite Hb.
  - rewrite (map_not_leaf cp p A B Hl).
    rewrite (map_not_leaf cp p A' B'); [done|].
    intros Hl'. apply Hl.
    by apply (alike_side_leaf p A' A B' B);
      [apply alike_side_sym|apply alike_side_sym|].
Qed.

Lemma callback_reads_four_things_witness :
  let cp := UnifiedPatch.createPatch in
  let A := Some (file "oid-1" "") in
  let A' := Some (gitlink "oid-1") in
  alike_side A A' /\ alike_side (@None WalkerEntry) None
  /\ map cp "vendor" A None = map cp "vendor" A' None.
Proof.
  intros cp A A'.
  assert (HA : alike_side A A')
    by (repeat split; try reflexivity; discriminate).
  assert (HB : alike_side (@None WalkerEntry) None) by exact I.
  split; [exact HA|]. split; [exact HB|].
  exact (callback_reads_four_things cp "vendor" A A' None None HA HB).
Defined.

(** X5. A record names the path the callback was called at, in [new_path] or
    in [old_path] or in both, and names no other path. *)
Theorem record_names_its_path cp p A B r :
  map cp p A B = Ok (Some r) ->
  (new_path r = Some p \/ old_path r = Some p)
  /\ (new_path r = Some p \/ new_path r = None)
  /\ (old_path r = Some p \/ old_path r = None)
  /\ forall q, about q r <-> q = p.
Proof.
  intros Hm.
  split; [by apply (map_Some_leaf cp p A B r Hm)|].
  split; [map_inv Hm; simpl; auto|].
  split; [map_inv Hm; simpl; auto|].
  intros q. split.
  - by apply (map_about cp p A B r q).
  - intros ->. by apply (map_Some_leaf cp p A B r Hm).
Qed.

Lemma record_names_its_path_witness :
  let cp := UnifiedPatch.createPatch in
  let r := first_page_removed in
  let A := Some (file "oid-1" "# This is the first page") in
  map cp "page-1.md" A None = Ok (Some r)
  /\ (new_path r = Some "page-1.md" \/ old_path r = Some "page-1.md")
  /\ (new_path r = Some "page-1.md" \/ new_path r = None)
  /\ (old_path r = Some "page-1.md" \/ old_path r = None)
  /\ forall q, about q r <-> q = "page-1.md".
Proof.
  intros cp r A.
  assert (Hm : map cp "page-1.md" A None = Ok (Some r)) by (vm_compute; reflexivity).
  split; [exact Hm|].
  exact (record_names_its_path cp "page-1.md" A None r Hm).
Defined.

(** ** Which paths a walk reports *)

Lemma map_result_changed cp p A B res :
  map cp p A B = Ok res ->
  (is_Some res <-> leaf (p, (A, B)) /\ oid <$> A <> oid <$> B).
Proof.
  destruct (decide (leaf (p, (A, B)))) as [Hl|Hl].
  - rewrite (map_leaf cp p A B Hl).
    destruct A as [a|], B as [b|]; simpl; [| | |done].
    + case_decide as E.
      * intros [= <-]. split; [by intros [? ?]|].
        intros [_ Hne]. destruct Hne. by f_equal.
      * destruct (fetch (Some a)); simpl; [|done].
        destruct (fetch (Some b)); simpl; [|done].
        intros [= <-]. split; [|by eexists].
        intros _. split; [done|]. by intros [= ?].
    + destruct (fetch (Some a)); simpl; [|done].
      intros [= <-]. split; [done|by eexists].
    + destruct (fetch (Some b)); simpl; [|done].
      intros [= <-]. split; [done|by eexists].
  - rewrite (map_not_leaf cp p A B Hl). intros [= <-]. split.
    + by intros [? ?].
    + by intros [? _].
Qed.

Lemma collect_filter_visit cp vs rs p A B :
  collect cp vs = Ok rs -> NoDup vs.*1 -> (p, (A, B)) ∈ vs ->
  exists res, map cp p A B = Ok res /\ filter (about p) rs = option_list res.
Proof.
  revert rs. induction vs as [|[q [A' B']] vs IH]; intros rs.
  - intros _ _ Hin. by apply elem_of_nil in Hin.
  - rewrite collect_cons.
    destruct (map cp q A' B') as [res0|] eqn:Hm; [|done].
    destruct (collect cp vs) as [rs'|] eqn:Hc; [|done].
    intros [= <-] Hnd Hin. simpl in Hnd.
    apply NoDup_cons in Hnd as [Hq Hnd].
    rewrite filter_app.
    apply elem_of_cons in Hin as [[= -> -> ->]|Hin].
    + exists res0. split; [done|].
      rewrite (collect_filter_absent cp vs rs' q Hc Hq), app_nil_r.
      destruct res0 as [r|]; simpl; [|done].
      rewrite filter_cons_True by apply (map_Some_leaf cp q A' B' r Hm).
      done.
    + assert (p <> q) as Hne.
      { intros ->. apply Hq. apply list_elem_of_fmap.
        by exists (q, (A, B)). }
      rewrite (filter_about_result cp p q A' B' res0 Hm Hne). simpl.
      by apply IH.
Qed.

(** X6. The walk of two snapshots reports exactly the changed leaf paths,
    each once: a path has one record if it is a leaf whose content identity
    differs between the sides (an absent side having none), and no record
    otherwise. *)
Theorem walk_reports_changed_leaves cp (treeA treeB : Tree) rs p :
  walk cp treeA treeB = Ok rs ->
  (changed_leaf treeA treeB p -> exists r, filter (about p) rs = [r])
  /\ (~ changed_leaf treeA treeB p -> filter (about p) rs = []).
Proof.
  intros Hw. unfold changed_leaf.
  destruct (decide (p ∈ paths treeA treeB)) as [Hp|Hp].
  - assert ((p, (treeA !! p, treeB !! p)) ∈ visits treeA treeB) as Hin.
    { apply elem_of_visits. by apply elem_of_paths in Hp. }
    destruct (collect_filter_visit cp (visits treeA treeB) rs p
                (treeA !! p) (treeB !! p) Hw) as (res & Hm & ->);
      [rewrite visits_paths; apply NoDup_paths|exact Hin|].
    pose proof (map_result_changed cp p _ _ res Hm) as Hiff.
    split.
    + intros Hch. apply Hiff in Hch as [r ->]. by exists r.
    + intros Hn. destruct res as [r|]; [|done].
      destruct Hn. apply Hiff. by eexists.
  - assert (treeA !! p = None /\ treeB !! p = None) as [HA HB].
    { rewrite elem_of_paths in Hp.
      split; apply eq_None_not_Some; intros ?; apply Hp; auto. }
    split.
    + rewrite HA, HB. by intros [_ ?].
    + intros _. apply (collect_filter_absent cp _ rs p Hw).
      by rewrite visits_paths.
Qed.

Lemma walk_reports_changed_leaves_witness :
  let cp := UnifiedPatch.createPatch in
  let rs := [second_page_added] in
  walk cp first_commit second_commit = Ok rs
  /\ (changed_leaf first_commit second_commit "page-2.md" ->
      exists r, filter (about "page-2.md") rs = [r])
  /\ (~ changed_leaf first_commit second_commit "page-2.md" ->
      filter (about "page-2.md") rs = []).
Proof.
  intros cp rs.
  assert (Hw : walk cp first_commit second_commit = Ok rs) by (vm_compute; reflexivity).
  split; [exact Hw|].
  exact (walk_reports_changed_leaves cp first_commit second_commit rs "page-2.md" Hw).
Defined.

(** ** The commit against its first parent: three cases *)

Lemma walk_self cp (t : Tree) : walk cp t t = Ok [].
Proof.
  apply collect_nothing. intros p A B Hin.
  apply elem_of_visits in Hin as (-> & -> & Hs).
  destruct (t !! p) as [e|]; [by apply map_equal_identity|].
  destruct Hs as [[? ?]|[? ?]]; done.
Qed.

Lemma walk_from_nothing cp (treeA treeB : Tree) rs :
  (forall p, p <> "." -> treeA !! p = None) ->
  walk cp treeA treeB = Ok rs ->
  Forall (fun r => record_kind r = add /\ old_path r = None /\ a_mode r = None) rs.
Proof.
  intros Hempty Hw. apply Forall_forall. intros r Hr.
  destruct (collect_Ok_inv cp _ rs r Hw Hr) as (p & A & B & Hin & Hm).
  apply elem_of_visits in Hin as (-> & -> & _).
  destruct (map_Some_leaf cp p _ _ r Hm) as [Hl _].
  pose proof Hl as (Hp & _). simpl in Hp.
  rewrite (Hempty p Hp) in Hm, Hl.
  rewrite (map_leaf cp p None _ Hl) in Hm.
  destruct (treeB !! p) as [b|]; [|done].
  destruct (fetch (Some b)); simpl in Hm; [|done].
  injection Hm as <-. done.
Qed.

(** X7. The diff of a commit without a first parent (no parent, or an empty
    first parent id) is taken against the empty-tree id: when that id stands
    for a snapshot with nothing below the root, what [diff] returns are add
    records only, each with a null [old_path] and a null [a_mode]. *)
Theorem root_commit_only_adds cp parent (TREE : string -> Tree) sha rs :
  head (parent sha) = None \/ head (parent sha) = Some "" ->
  (forall p, p <> "." -> TREE Commit.empty_tree_ref !! p = None) ->
  Commit.diff cp parent TREE sha = Ok rs ->
  Forall (fun r => record_kind r = add /\ old_path r = None
                   /\ a_mode r = None) rs.
Proof.
  intros Hpar Hempty.
  assert (Commit.diff cp parent TREE sha
          = walk cp (TREE Commit.empty_tree_ref) (TREE sha)) as ->.
  { unfold Commit.diff. by destruct Hpar as [-> | ->]. }
  exact (walk_from_nothing cp (TREE Commit.empty_tree_ref) (TREE sha) rs Hempty).
Qed.

Lemma root_commit_only_adds_witness :
  let cp := UnifiedPatch.createPatch in
  let rs := [first_page_added] in
  (head (main_parent "commit-1") = None \/ head (main_parent "commit-1") = Some "")
  /\ (forall p, p <> "." -> main_TREE Commit.empty_tree_ref !! p = None)
  /\ Commit.diff cp main_parent main_TREE "commit-1" = Ok rs
  /\ Forall (fun r => record_kind r = add /\ old_path r = None
                      /\ a_mode r = None) rs.
Proof.
  intros cp rs.
  assert (H1 : head (main_parent "commit-1") = None
               \/ head (main_parent "commit-1") = Some "") by (left; reflexivity).
  assert (H2 : forall p, p <> "." -> main_TREE Commit.empty_tree_ref !! p = None).
  { intros p Hp. change (main_TREE Commit.empty_tree_ref) with empty_tree.
    unfold empty_tree. by apply lookup_singleton_ne. }
  assert (H3 : Commit.diff cp main_parent main_TREE "commit-1" = Ok rs)
    by (vm_compute; reflexivity).
  split; [exact H1|]. split; [exact H2|]. split; [exact H3|].
  exact (root_commit_only_adds cp main_parent main_TREE "commit-1" rs H1 H2 H3).
Defined.

(** X8. A commit whose tree is the snapshot of its first parent, as an empty
    commit has it, has an empty diff, whatever its other parents are. *)
Theorem unchanged_commit_empty_diff cp parent (TREE : string -> Tree) sha p ps :
  parent sha = p :: ps -> p <> "" -> TREE p = TREE sha ->
  Commit.diff cp parent TREE sha = Ok [].
Proof.
  intros Hpar Hp Ht. unfold Commit.diff. rewrite Hpar. simpl.
  rewrite (proj2 (String.eqb_neq _ _) Hp), Ht.
  apply walk_self.
Qed.

Lemma unchanged_commit_empty_diff_witness :
  let cp := UnifiedPatch.createPatch in
  let parent := fun sha : string =>
    if String.eqb sha "commit-3" then ["commit-2"; "commit-1"] else main_parent sha in
  let TREE := fun ref : string =>
    if String.eqb ref "commit-3" then second_commit else main_TREE ref in
  parent "commit-3" = ["commit-2"; "commit-1"] /\ "commit-2" <> ""
  /\ TREE "commit-2" = TREE "commit-3"
  /\ Commit.diff cp parent TREE "commit-3" = Ok [].
Proof.
  intros cp parent TREE.
  assert (H1 : parent "commit-3" = ["commit-2"; "commit-1"]) by reflexivity.
  assert (H2 : "commit-2" <> "") by discriminate.
  assert (H3 : TREE "commit-2" = TREE "commit-3") by reflexivity.
  split; [exact H1|]. split; [exact H2|]. split; [exact H3|].
  exact (unchanged_commit_empty_diff cp parent TREE "commit-3" "commit-2"
           ["commit-1"] H1 H2 H3).
Defined.
